(** * Message extraction for i18n
    (modules/@angular/compiler/src/i18n/message_extractor.ts)

    A shallow embedding of [removeDuplicates] and of the [MessageExtractor]
    class, followed by the properties of the extraction driver.

    Conventions of the embedding:
    - the mutable fields [_messages] and [_errors] of a [MessageExtractor]
      are an explicit state threaded through every method;
    - a JavaScript [throw] is an outcome of a computation, distinct from a
      normal return, and carries the thrown value;
    - the functions imported from [./shared] and [./message] and the two
      parsers are parameters of the development and are taken to be
      functions of their arguments. *)

From stdpp Require Import base option list strings gmap.

Open Scope string_scope.
Open Scope list_scope.

(** ** Data model *)

(** Modelled from the spec: the class [HtmlAttrAst] of [../html_ast], which is
    not among the sources; an attribute is a name and a value. *)
Record HtmlAttrAst : Type := MkAttr {
  attr_name : string;
  attr_value : string;
}.

(** Modelled from the spec: the classes of [../html_ast], which is not among
    the sources.  [HtmlAst] is the base class of the four kinds of nodes:
    text, comment, element and expansion.  An element has a name, attributes
    and children ([p.name], [p.attrs] and [n.children] in the source, which
    tells elements from the other nodes with [instanceof]); an expansion
    holds nodes too, a list for each of its cases, but they are not
    children of an element. *)
#[local] Unset Elimination Schemes.
Inductive HtmlAst : Type :=
| AstText (value : string)
| AstComment (value : string)
| AstElement (el : HtmlElementAst)
| AstExpansion (switchValue type : string) (cases : list (string * list HtmlAst))
with HtmlElementAst : Type :=
| MkElement (name : string) (attrs : list HtmlAttrAst) (children : list HtmlAst).
#[local] Set Elimination Schemes.

Definition el_name (p : HtmlElementAst) : string :=
  match p with MkElement n _ _ => n end.

Definition el_attrs (p : HtmlElementAst) : list HtmlAttrAst :=
  match p with MkElement _ a _ => a end.

Definition el_children (p : HtmlElementAst) : list HtmlAst :=
  match p with MkElement _ _ c => c end.

(** Modelled from the spec: the class [ParseError] of [../parse_util], which
    is not among the sources; a diagnostic is a location and a text.
    [I18nError], the subclass raised by the i18n helpers, has the same
    fields; the class of a thrown object is kept by [Exception] below. *)
Record ParseError : Type := MkParseError {
  error_span : string;
  error_msg : string;
}.

(** Modelled from the spec: the class [Message] of [./message], which is not
    among the sources; a message has a content and the optional metadata of
    the translator. *)
Record Message : Type := MkMessage {
  content : string;
  meaning : option string;
  description : option string;
}.

(** All messages extracted from a template. *)
Record ExtractionResult : Type := MkExtractionResult {
  messages : list Message;
  errors : list ParseError;
}.

(** Modelled from the spec: the result of the markup parser, of
    [../html_parser], which is not among the sources; [extract] reads its
    [rootNodes] and its [errors]. *)
Record HtmlParseTreeResult : Type := MkHtmlParseTreeResult {
  rootNodes : list HtmlAst;
  parse_errors : list ParseError;
}.

(** Modelled from the spec: the class [Part] of [./shared], which is not
    among the sources, under the names the methods read it with and as the
    comment on [MessageExtractor] describes it: a part may have a root
    element or a root text node, it may have children (hence the [isPresent]
    test of [_recurse]), and it may have the [i18n] property, in which case
    [hasI18n] holds. *)
Record Part : Type := MkPart {
  rootElement : option HtmlElementAst;
  rootTextNode : option HtmlAst;
  children : option (list HtmlAst);
  i18n : option string;
  hasI18n : bool;
}.

#[global] Instance HtmlAttrAst_eq_dec : EqDecision HtmlAttrAst.
Proof. solve_decision. Defined.

#[global] Instance ParseError_eq_dec : EqDecision ParseError.
Proof. solve_decision. Defined.

#[global] Instance Message_eq_dec : EqDecision Message.
Proof. solve_decision. Defined.

(** ** String maps

    [removeDuplicates] uses a JavaScript object as a map from identities to
    messages and reads it back with [StringMapWrapper.values], that is in the
    enumeration order of the object's own string keys: the order in which
    they were first assigned (identities are keys of that kind, not array
    indices).  The object is therefore an association list with one entry per
    key, kept in insertion order. *)
Module StringMapWrapper.

Definition StringMap (V : Type) : Type := list (string * V).

Definition create {V} : StringMap V := [].

(** [map.hasOwnProperty(key)] *)
Definition contains {V} (map : StringMap V) (key : string) : bool :=
  bool_decide (key ∈ map.*1).

(** [map[key] = value]: an existing key keeps its place and takes the new
    value, a new key goes last. *)
Fixpoint set {V} (map : StringMap V) (key : string) (value : V) : StringMap V :=
  match map with
  | [] => [(key, value)]
  | (k, v) :: rest =>
      if decide (k = key) then (k, value) :: rest
      else (k, v) :: set rest key value
  end.

(** [Object.keys(map).map(k => map[k])] *)
Definition values {V} (map : StringMap V) : list V := map.*2.

End StringMapWrapper.

(** ** removeDuplicates

    [id] is the identity of a message ([id] of [./message]). *)
Definition removeDuplicates_step (id : Message → string)
    (uniq : StringMapWrapper.StringMap Message) (m : Message) :
    StringMapWrapper.StringMap Message :=
  if negb (StringMapWrapper.contains uniq (id m))
  then StringMapWrapper.set uniq (id m) m
  else uniq.

Definition removeDuplicates (id : Message → string) (messages : list Message) :
    list Message :=
  let uniq := foldl (removeDuplicates_step id) StringMapWrapper.create messages in
  StringMapWrapper.values uniq.

(** The first position of [l] holding a message of identity [i]. *)
Definition first_with (id : Message → string) (i : string) (l : list Message) :
    option (nat * Message) :=
  list_find (λ m, id m = i) l.

(** ** Computations of the extractor *)

(** A thrown value: an instance of [I18nError], or anything else. *)
Inductive Exception : Type :=
| I18nError (e : ParseError)
| OtherError (what : string).

(** How a call of a collaborator completes. *)
Inductive Completion (A : Type) : Type :=
| Normal (a : A)
| Throw (e : Exception).
Arguments Normal {A} a.
Arguments Throw {A} e.

(** How a method of the extractor completes.  [OutOfFuel] is not a behaviour
    of the program: it marks a run of the model cut by the bound put on the
    depth of the mutual recursion of [_recurse] and
    [_extractMessagesFromPart]. *)
Inductive Outcome (A : Type) : Type :=
| Returned (a : A)
| Thrown (e : Exception)
| OutOfFuel.
Arguments Returned {A} a.
Arguments Thrown {A} e.
Arguments OutOfFuel {A}.

(** The mutable fields of a [MessageExtractor]. *)
Record Fields : Type := MkFields {
  _messages : list Message;
  _errors : list ParseError;
}.

Definition M (A : Type) : Type := Fields → Outcome A * Fields.

Definition ret {A} (a : A) : M A := λ s, (Returned a, s).

Definition throw {A} (e : Exception) : M A := λ s, (Thrown e, s).

Definition bind {A B} (c : M A) (k : A → M B) : M B := λ s,
  match c s with
  | (Returned a, s') => k a s'
  | (Thrown e, s') => (Thrown e, s')
  | (OutOfFuel, s') => (OutOfFuel, s')
  end.

Notation "x <- c ;; k" := (bind c (λ x, k))
  (at level 100, c at next level, right associativity, only parsing).
Notation "c ;;; k" := (bind c (λ _, k))
  (at level 100, right associativity, only parsing).

(** A call of a collaborator inside a method. *)
Definition call {A} (c : Completion A) : M A :=
  match c with
  | Normal a => ret a
  | Throw e => throw e
  end.

(** [try { c } catch (e) { h e }] *)
Definition try_catch {A} (c : M A) (h : Exception → M A) : M A := λ s,
  match c s with
  | (Thrown e, s') => h e s'
  | r => r
  end.

(** [this._messages.push(m)] *)
Definition push_message (m : Message) : M unit := λ s,
  (Returned (), MkFields (_messages s ++ [m]) (_errors s)).

(** [this._errors.push(e)] *)
Definition push_error (e : ParseError) : M unit := λ s,
  (Returned (), MkFields (_messages s) (_errors s ++ [e])).

(** The fields after [ms] and [es] were pushed on them. *)
Definition pushed (s : Fields) (ms : list Message) (es : list ParseError) : Fields :=
  MkFields (_messages s ++ ms) (_errors s ++ es).

(** What [c] does to the fields does not depend on what they hold: from any
    fields it ends as from empty ones and pushes what it pushes on empty
    ones. *)
Definition frame {A} (c : M A) : Prop :=
  ∀ s, c s = ((c (MkFields [] [])).1,
              pushed s (_messages (c (MkFields [] [])).2)
                (_errors (c (MkFields [] [])).2)).

(** The fields [s'] are the fields [s] with more pushed on them. *)
Definition grows (s s' : Fields) : Prop :=
  ∃ ms es, s' = pushed s ms es.

(** [l.forEach(f)]: the calls are made in order and a throw ends the loop. *)
Definition forEach {A} (f : A → M unit) : list A → M unit :=
  fix go (l : list A) : M unit :=
    match l with
    | [] => ret ()
    | x :: l' => f x ;;; go l'
    end.

(** [l.indexOf(x)] on an array of strings. *)
Fixpoint indexOf (l : list string) (x : string) : Z :=
  match l with
  | [] => -1
  | y :: l' =>
      if decide (y = x) then 0
      else let i := indexOf l' x in if decide (i = -1)%Z then (-1)%Z else (i + 1)%Z
  end.

(** [s.startsWith(p)] *)
Definition startsWith (s p : string) : bool := String.prefix p s.

(** [s.substring(n)] *)
Definition substring_from (n : nat) (s : string) : string :=
  String.substring n (String.length s - n) s.

(** Modelled from the spec: the constant [I18N_ATTR_PREFIX] of [./shared],
    which is not among the sources; the spec marks the [title] attribute with
    an [i18n-title] attribute. *)
Definition I18N_ATTR_PREFIX : string := "i18n-".

(** ** The collaborators *)

(** The functions imported from [./shared], [./message] and
    [../interpolation_config], over the types of the expression parser and
    of the interpolation configuration.  [partition] returns the parts and
    the errors it pushes on the array it is given. *)
Class Shared (Parser InterpolationConfig : Type) : Type := MkShared {
  DEFAULT_INTERPOLATION_CONFIG : InterpolationConfig;
  partition : list HtmlAst → list string → list Part * list ParseError;
  createMessage : Part → Parser → InterpolationConfig → Completion Message;
  messageFromAttribute :
    Parser → InterpolationConfig → HtmlAttrAst → Completion Message;
  messageFromI18nAttribute :
    Parser → InterpolationConfig → HtmlElementAst → HtmlAttrAst →
    Completion Message;
}.

(** The constructor arguments of a [MessageExtractor]; the markup parser is
    its [parse] method. *)
Record MessageExtractor (Parser : Type) : Type := MkMessageExtractor {
  _htmlParser : string → string → bool → HtmlParseTreeResult;
  _parser : Parser;
  _implicitTags : list string;
  _implicitAttrs : gmap string (list string);
}.
Arguments _htmlParser {Parser} _.
Arguments _parser {Parser} _.
Arguments _implicitTags {Parser} _.
Arguments _implicitAttrs {Parser} _.

(** *** Reading the table of implicit attributes

    [_implicitAttrs] is a plain object and [this._implicitAttrs[p.name]]
    reads a property of it: an own property, which the map holds, or else a
    member that every object inherits from [Object.prototype], which is
    neither absent nor an array of strings. *)
Definition Object_prototype_names : list string :=
  ["constructor"; "__defineGetter__"; "__defineSetter__"; "hasOwnProperty";
   "__lookupGetter__"; "__lookupSetter__"; "isPrototypeOf";
   "propertyIsEnumerable"; "toString"; "valueOf"; "__proto__";
   "toLocaleString"].

Inductive PropertyValue : Type :=
| Undefined
| Strings (l : list string)
| Inherited.

(** [table[name]] *)
Definition get_property (table : gmap string (list string)) (name : string) :
    PropertyValue :=
  match table !! name with
  | Some l => Strings l
  | None =>
      if decide (name ∈ Object_prototype_names) then Inherited else Undefined
  end.

(** ** The methods of [MessageExtractor] *)
Section Methods.

Context {Parser InterpolationConfig : Type}.
Context `{!Shared Parser InterpolationConfig}.
Variable this : MessageExtractor Parser.

(** [attr.name.startsWith(I18N_ATTR_PREFIX)] *)
Definition prefixed (attr : HtmlAttrAst) : bool :=
  startsWith (attr_name attr) I18N_ATTR_PREFIX.

(** [attr.name.substring(I18N_ATTR_PREFIX.length)] *)
Definition base_name (attr : HtmlAttrAst) : string :=
  substring_from (String.length I18N_ATTR_PREFIX) (attr_name attr).

(** The [catch] clause of the first loop of [_extractMessagesFromAttributes]. *)
Definition catch_i18n (e : Exception) : M unit :=
  match e with
  | I18nError err => push_error err
  | OtherError _ => throw e
  end.

(** The first loop of [_extractMessagesFromAttributes], over the prefixed
    attributes; the local array [explicitAttrs] is threaded through it. *)
Fixpoint explicit_loop (p : HtmlElementAst) (interpolationConfig : InterpolationConfig)
    (attrs : list HtmlAttrAst) (explicitAttrs : list string) : M (list string) :=
  match attrs with
  | [] => ret explicitAttrs
  | attr :: rest =>
      let explicitAttrs := explicitAttrs ++ [base_name attr] in
      try_catch
        (m <- call (messageFromI18nAttribute (_parser this) interpolationConfig p attr) ;;
         push_message m)
        catch_i18n ;;;
      explicit_loop p interpolationConfig rest explicitAttrs
  end.

(** The three filters of the second loop. *)
Definition implicit_filter (transAttrs explicitAttrs : list string)
    (attrs : list HtmlAttrAst) : list HtmlAttrAst :=
  filter (λ attr, (indexOf transAttrs (attr_name attr) > -1)%Z)
    (filter (λ attr, indexOf explicitAttrs (attr_name attr) = (-1)%Z)
      (filter (λ attr, ¬ prefixed attr) attrs)).

(** The third filter of the second loop, [transAttrs.indexOf(attr.name) > -1]
    on the attributes the first two filters keep: when [transAttrs] is not
    an array it has no [indexOf], and the first call of the callback throws
    a [TypeError]; on no attribute the callback is not called. *)
Definition filter_listed (transAttrs : PropertyValue) (attrs : list HtmlAttrAst) :
    M (list HtmlAttrAst) :=
  match transAttrs with
  | Strings l => ret (filter (λ attr, (indexOf l (attr_name attr) > -1)%Z) attrs)
  | _ =>
      match attrs with
      | [] => ret []
      | _ :: _ => throw (OtherError "TypeError")
      end
  end.

Definition _extractMessagesFromAttributes (p : HtmlElementAst)
    (interpolationConfig : InterpolationConfig) : M unit :=
  let transAttrs : PropertyValue :=
    match get_property (_implicitAttrs this) (el_name p) with
    | Undefined => Strings []
    | present => present
    end in
  (* `i18n-` prefixed attributes should be translated *)
  explicitAttrs <-
    explicit_loop p interpolationConfig (filter (λ attr, prefixed attr) (el_attrs p)) [] ;;
  (* implicit attributes should also be translated *)
  selected <-
    filter_listed transAttrs
      (filter (λ attr, indexOf explicitAttrs (attr_name attr) = (-1)%Z)
         (filter (λ attr, ¬ prefixed attr) (el_attrs p))) ;;
  forEach
    (λ attr,
       m <- call (messageFromAttribute (_parser this) interpolationConfig attr) ;;
       push_message m)
    selected.

(** The callback of [_recurseToExtractMessagesFromAttributes]. *)
Fixpoint attributes_of_node (interpolationConfig : InterpolationConfig)
    (n : HtmlAst) : M unit :=
  match n with
  | AstElement (MkElement _ _ children as p) =>
      _extractMessagesFromAttributes p interpolationConfig ;;;
      forEach (attributes_of_node interpolationConfig) children
  | _ => ret ()
  end.

(** [nodes.forEach] on an absent array throws a [TypeError]. *)
Definition _recurseToExtractMessagesFromAttributes (nodes : option (list HtmlAst))
    (interpolationConfig : InterpolationConfig) : M unit :=
  match nodes with
  | Some nodes => forEach (attributes_of_node interpolationConfig) nodes
  | None => throw (OtherError "TypeError")
  end.

(** [partition(nodes, this._errors, this._implicitTags)] *)
Definition call_partition (nodes : list HtmlAst) : M (list Part) := λ s,
  let '(parts, pushed) := partition nodes (_implicitTags this) in
  (Returned parts, MkFields (_messages s) (_errors s ++ pushed)).

(** The first statement of [_extractMessagesFromPart], the [if] on
    [part.hasI18n], over the [_recurse] it calls. *)
Definition part_branch
    (recurse : option (list HtmlAst) → InterpolationConfig → M unit)
    (part : Part) (interpolationConfig : InterpolationConfig) : M unit :=
  if hasI18n part then
    m <- call (createMessage part (_parser this) interpolationConfig) ;;
    push_message m ;;;
    _recurseToExtractMessagesFromAttributes (children part) interpolationConfig
  else
    recurse (children part) interpolationConfig.

(** [_extractMessagesFromPart], over the [_recurse] it calls. *)
Definition extractMessagesFromPart_over
    (recurse : option (list HtmlAst) → InterpolationConfig → M unit)
    (part : Part) (interpolationConfig : InterpolationConfig) : M unit :=
  part_branch recurse part interpolationConfig ;;;
  match rootElement part with
  | Some p => _extractMessagesFromAttributes p interpolationConfig
  | None => ret ()
  end.

(** [_recurse]; [fuel] bounds the number of nested calls of [partition]. *)
Fixpoint _recurse (fuel : nat) (nodes : option (list HtmlAst))
    (interpolationConfig : InterpolationConfig) : M unit :=
  match nodes with
  | None => ret ()
  | Some nodes =>
      match fuel with
      | 0 => λ s, (OutOfFuel, s)
      | S fuel' =>
          parts <- call_partition nodes ;;
          forEach
            (λ part, extractMessagesFromPart_over (_recurse fuel') part interpolationConfig)
            parts
      end
  end.

Definition _extractMessagesFromPart (fuel : nat) (part : Part)
    (interpolationConfig : InterpolationConfig) : M unit :=
  extractMessagesFromPart_over (_recurse fuel) part interpolationConfig.

(** The statements of [extract]: the two assignments that open it, the
    guarded walk, and the construction of the result. *)
Definition extract_reset : M unit := λ _, (Returned (), MkFields [] []).

Definition extract_walk (fuel : nat) (res : HtmlParseTreeResult)
    (interpolationConfig : InterpolationConfig) : M unit :=
  if decide (length (parse_errors res) = 0)
  then _recurse fuel (Some (rootNodes res)) interpolationConfig
  else ret ().

Definition extract_result (res : HtmlParseTreeResult) : M ExtractionResult := λ s,
  (Returned (MkExtractionResult (_messages s) (_errors s ++ parse_errors res)), s).

Definition extract (fuel : nat) (template sourceUrl : string)
    (interpolationConfig : option InterpolationConfig) : M ExtractionResult :=
  let interpolationConfig :=
    default DEFAULT_INTERPOLATION_CONFIG interpolationConfig in
  extract_reset ;;;
  let res := _htmlParser this template sourceUrl true in
  extract_walk fuel res interpolationConfig ;;;
  extract_result res.

(** An invocation of [extract] during which the markup parser, before it
    returns, runs [inner] on the same instance: one of the ways in which two
    invocations on one instance can overlap (a collaborator called during
    the walk could run one as well). *)
Definition extract_reentered {A} (inner : M A) (fuel : nat)
    (template sourceUrl : string)
    (interpolationConfig : option InterpolationConfig) : M ExtractionResult :=
  let interpolationConfig :=
    default DEFAULT_INTERPOLATION_CONFIG interpolationConfig in
  extract_reset ;;;
  inner ;;;
  let res := _htmlParser this template sourceUrl true in
  extract_walk fuel res interpolationConfig ;;;
  extract_result res.

(** *** What an element contributes

    The prefixed attributes of an element, the attributes its second loop
    keeps, and the messages and errors the collaborators give for them. *)
Definition explicit_attributes (p : HtmlElementAst) : list HtmlAttrAst :=
  filter (λ attr, prefixed attr) (el_attrs p).

(** The names [transAttrs] lists, when it is an array. *)
Definition trans_attrs (p : HtmlElementAst) : list string :=
  match get_property (_implicitAttrs this) (el_name p) with
  | Strings l => l
  | _ => []
  end.

Definition implicit_attributes (p : HtmlElementAst) : list HtmlAttrAst :=
  implicit_filter (trans_attrs p) (base_name <$> explicit_attributes p) (el_attrs p).

Definition normal {A} (c : Completion A) : option A :=
  match c with Normal a => Some a | Throw _ => None end.

Definition i18n_error {A} (c : Completion A) : option ParseError :=
  match c with Throw (I18nError e) => Some e | _ => None end.

Definition explicit_messages (interpolationConfig : InterpolationConfig)
    (p : HtmlElementAst) : list Message :=
  omap (λ attr, normal (messageFromI18nAttribute (_parser this) interpolationConfig p attr))
    (explicit_attributes p).

Definition implicit_messages (interpolationConfig : InterpolationConfig)
    (p : HtmlElementAst) : list Message :=
  omap (λ attr, normal (messageFromAttribute (_parser this) interpolationConfig attr))
    (implicit_attributes p).

Definition attribute_messages (interpolationConfig : InterpolationConfig)
    (p : HtmlElementAst) : list Message :=
  explicit_messages interpolationConfig p ++ implicit_messages interpolationConfig p.

Definition attribute_errors (interpolationConfig : InterpolationConfig)
    (p : HtmlElementAst) : list ParseError :=
  omap (λ attr, i18n_error (messageFromI18nAttribute (_parser this) interpolationConfig p attr))
    (explicit_attributes p).

(** *** What an element is to contribute

    The two ways in which an attribute of [p] is translatable, said without
    the functions of the methods.  Explicitly: its name starts with the
    five characters of the prefix.  Implicitly: it does not, the element has
    no attribute named by the prefix followed by its name, and the table of
    implicit attributes has an entry for the tag of [p] that lists its
    name. *)
Definition explicitly_translatable (attr : HtmlAttrAst) : Prop :=
  String.substring 0 5 (attr_name attr) = "i18n-".

Definition claimed (p : HtmlElementAst) (attr : HtmlAttrAst) : Prop :=
  String.append "i18n-" (attr_name attr) ∈ attr_name <$> el_attrs p.

Definition listed (p : HtmlElementAst) (attr : HtmlAttrAst) : Prop :=
  attr_name attr ∈ default [] (_implicitAttrs this !! el_name p).

Definition implicitly_translatable (p : HtmlElementAst) (attr : HtmlAttrAst) : Prop :=
  (¬ explicitly_translatable attr) ∧ (¬ claimed p attr) ∧ listed p attr.

#[global] Instance explicitly_translatable_dec attr :
  Decision (explicitly_translatable attr).
Proof. unfold explicitly_translatable. apply _. Defined.

#[global] Instance claimed_dec p attr : Decision (claimed p attr).
Proof. unfold claimed. apply _. Defined.

#[global] Instance implicitly_translatable_dec p attr :
  Decision (implicitly_translatable p attr).
Proof. unfold implicitly_translatable, claimed, listed. apply _. Defined.

(** The messages and the errors expected of the attributes of [p]: for each
    explicitly translatable attribute the message its builder returns or
    the i18n error it raises, then the message of each implicitly
    translatable attribute. *)
Definition expected_messages (interpolationConfig : InterpolationConfig)
    (p : HtmlElementAst) : list Message :=
  omap (λ attr, normal (messageFromI18nAttribute (_parser this) interpolationConfig p attr))
    (filter explicitly_translatable (el_attrs p))
  ++ omap (λ attr, normal (messageFromAttribute (_parser this) interpolationConfig attr))
       (filter (implicitly_translatable p) (el_attrs p)).

Definition expected_errors (interpolationConfig : InterpolationConfig)
    (p : HtmlElementAst) : list ParseError :=
  omap (λ attr, i18n_error (messageFromI18nAttribute (_parser this) interpolationConfig p attr))
    (filter explicitly_translatable (el_attrs p)).



(** The tag of [p] does not read an inherited member of the table: it is an
    own key or it is not a name of [Object.prototype]. *)
Definition readable (p : HtmlElementAst) : Prop :=
  el_name p ∈ Object_prototype_names → is_Some (_implicitAttrs this !! el_name p).

(** Nothing is thrown on [p] but i18n errors by the builders of its
    explicitly translatable attributes: the table is readable for its tag,
    these builders throw nothing else, and the builder returns for the
    implicitly translatable attributes. *)
Definition quiet (interpolationConfig : InterpolationConfig) (p : HtmlElementAst) : Prop :=
  readable p ∧
  (∀ attr w, attr ∈ el_attrs p → explicitly_translatable attr →
     messageFromI18nAttribute (_parser this) interpolationConfig p attr ≠ Throw (OtherError w)) ∧
  (∀ attr, attr ∈ el_attrs p → implicitly_translatable p attr →
     is_Some (normal (messageFromAttribute (_parser this) interpolationConfig attr))).

End Methods.




(** ** Reference definitions *)

(** Deduplication as the specification words it: the first message seen for
    each identity is kept, in the order of the input, and a message whose
    identity was seen before is discarded.  [seen] holds the identities met
    so far. *)
Fixpoint dedupe_from (id : Message → string) (seen : list string)
    (l : list Message) : list Message :=
  match l with
  | [] => []
  | m :: l' =>
      if decide (id m ∈ seen) then dedupe_from id seen l'
      else m :: dedupe_from id (id m :: seen) l'
  end.

Definition dedupe (id : Message → string) (l : list Message) : list Message :=
  dedupe_from id [] l.

(** What a consumer of an [ExtractionResult] compares: content, meaning and
    identity of each message. *)
Definition triples (id : Message → string) (l : list Message) :
    list (string * option string * string) :=
  (λ m, (content m, meaning m, id m)) <$> l.

(** ** The node partitioner *)
Module Partitioner.

Section Partition.

(** The name of the marker attribute, the recognisers of the values of the
    opening and of the closing marker comment, and the text that a part
    takes from the value of its opening comment. *)
Variable markerAttr : string.
Variables opens closes : string → bool.
Variable marker_text : string → string.

Definition _isOpeningComment (n : HtmlAst) : bool :=
  match n with AstComment v => opens v | _ => false end.

Definition _isClosingComment (n : HtmlAst) : bool :=
  match n with AstComment v => closes v | _ => false end.

Definition _findI18nAttr (p : HtmlElementAst) : option HtmlAttrAst :=
  snd <$> list_find (λ a, attr_name a = markerAttr) (el_attrs p).

Definition missing_closing (v : string) : ParseError :=
  MkParseError v "Missing closing 'i18n' comment.".

(** The part of an element: the element for root, its children for
    children, to translate when it has the marker attribute or an implicit
    tag. *)
Definition element_part (implicitTags : list string) (p : HtmlElementAst) : Part :=
  let i18n := _findI18nAttr p in
  MkPart (Some p) None (Some (el_children p)) (attr_value <$> i18n)
    (bool_decide (is_Some i18n)
     || bool_decide (indexOf implicitTags (el_name p) > -1)%Z).

(** The part of a text node: the node for root text node, no children. *)
Definition text_part (n : HtmlAst) : Part :=
  MkPart None (Some n) None None false.

(** The part of a span: the nodes between the two marker comments. *)
Definition span_part (v : string) (msgNodes : list HtmlAst) : Part :=
  MkPart None None (Some msgNodes) (Some (marker_text v)) true.

(** The part of a node met outside a span, if it has one: comments and
    expansions have none. *)
Definition single (implicitTags : list string) (n : HtmlAst) : option Part :=
  match n with
  | AstElement p => Some (element_part implicitTags p)
  | AstText _ => Some (text_part n)
  | _ => None
  end.

(** Modelled from the spec: the function [partition] of [./shared], which is
    not among the sources, with the parts that the methods of
    [MessageExtractor] read and that the comment on the class describes:
    the children of the part of an element are the children of the element,
    on which [_recurse] goes on, and the part of a text node has none.  The
    siblings are scanned from left to right; [open] is the state of the
    scan: [None] outside a span, and inside one the value of its opening
    comment with the nodes met since.  A closing comment ends the span,
    whose part gets the nodes between the two comments; a span still open
    at the end of the list is reported as an error and gets no part, which
    ends the scan; outside a span a comment that opens nothing and an
    expansion get no part. *)
Fixpoint scan (implicitTags : list string) (open : option (string * list HtmlAst))
    (nodes : list HtmlAst) : list Part * list ParseError :=
  match nodes, open with
  | [], None => ([], [])
  | [], Some (v, _) => ([], [missing_closing v])
  | n :: rest, Some (v, msgNodes) =>
      if _isClosingComment n then
        let '(parts, errs) := scan implicitTags None rest in
        (span_part v msgNodes :: parts, errs)
      else scan implicitTags (Some (v, msgNodes ++ [n])) rest
  | n :: rest, None =>
      match n with
      | AstComment v =>
          if opens v then scan implicitTags (Some (v, [])) rest
          else scan implicitTags None rest
      | _ =>
          let '(parts, errs) := scan implicitTags None rest in
          (from_option (λ part, part :: parts) parts (single implicitTags n), errs)
      end
  end.

(** Modelled from the spec: [partition], the scan started outside a span. *)
Definition partition (siblings : list HtmlAst) (implicitTags : list string) :
    list Part * list ParseError :=
  scan implicitTags None siblings.

End Partition.

(** The children of the parts, one after the other. *)
Definition all_children (parts : list Part) : list HtmlAst :=
  concat (default [] ∘ children <$> parts).

(** The siblings a part stands for: its root element, or its root text
    node, or else its children. *)
Definition part_nodes (part : Part) : list HtmlAst :=
  match rootElement part, rootTextNode part with
  | Some p, _ => [AstElement p]
  | None, Some n => [n]
  | None, None => default [] (children part)
  end.

End Partitioner.

(** ** Sample collaborators

    A small instance of the parameters, on which the methods can be run:
    messages carry the text they were built from, the expression parser is a
    function on that text, and an [i18n-x] attribute without an [x]
    attribute beside it is an i18n error. *)
Module Sample.

Definition Parser : Type := string → Completion string.

Definition plain_parser : Parser := λ v, Normal v.

(** A parser with an internal failure on one input. *)
Definition failing_parser : Parser := λ v,
  if decide (v = "{{") then Throw (OtherError "parser failure") else Normal v.

Definition messageFromAttribute (parser : Parser) (_ : unit)
    (attr : HtmlAttrAst) : Completion Message :=
  match parser (attr_value attr) with
  | Normal v => Normal (MkMessage v None None)
  | Throw e => Throw e
  end.

Definition messageFromI18nAttribute (parser : Parser) (_ : unit)
    (p : HtmlElementAst) (i18nAttr : HtmlAttrAst) : Completion Message :=
  let expectedName := base_name i18nAttr in
  match list_find (λ a, attr_name a = expectedName) (el_attrs p) with
  | Some (_, attr) =>
      match parser (attr_value attr) with
      | Normal v => Normal (MkMessage v (Some (attr_value i18nAttr)) None)
      | Throw e => Throw e
      end
  | None => Throw (I18nError (MkParseError (el_name p) "Missing attribute."))
  end.

(** A builder that also takes an empty marker value for an i18n error. *)
Definition strict_messageFromI18nAttribute (parser : Parser) (u : unit)
    (p : HtmlElementAst) (i18nAttr : HtmlAttrAst) : Completion Message :=
  if decide (attr_value i18nAttr = "")
  then Throw (I18nError (MkParseError (el_name p) "Empty marker."))
  else messageFromI18nAttribute parser u p i18nAttr.

Definition text_of (n : HtmlAst) : string :=
  match n with AstText v => v | _ => "" end.

Definition createMessage (part : Part) (parser : Parser) (_ : unit) :
    Completion Message :=
  match parser (String.concat "" (text_of <$> default [] (children part))) with
  | Normal v => Normal (MkMessage v (i18n part) None)
  | Throw e => Throw e
  end.

(** The partitioner with [i18n] for marker attribute, the comments whose
    value starts with [i18n] for opening comments and [/i18n] for closing
    comment. *)
Definition partition (nodes : list HtmlAst) (implicitTags : list string) :
    list Part * list ParseError :=
  Partitioner.partition "i18n" (λ v, startsWith v "i18n") (String.eqb "/i18n")
    (substring_from 5) nodes implicitTags.

#[global] Instance shared : Shared Parser unit :=
  MkShared Parser unit () partition createMessage messageFromAttribute
    messageFromI18nAttribute.

Definition strict_shared : Shared Parser unit :=
  MkShared Parser unit () partition createMessage messageFromAttribute
    strict_messageFromI18nAttribute.

(** Elements: one with an [i18n-title] for its [title]; one with a dangling
    [i18n-title]; one to translate, with an image two levels down; one on
    whose [title] the failing parser fails. *)
Definition anchor : HtmlElementAst :=
  MkElement "a" [MkAttr "i18n-title" "greeting|shown on hover"; MkAttr "title" "Hello"]
    [AstText "A"].

Definition dangling : HtmlElementAst :=
  MkElement "a" [MkAttr "i18n-title" "greeting"] [AstText "A"].

Definition image : HtmlElementAst :=
  MkElement "img" [MkAttr "alt" "picture"] [].

Definition bold : HtmlElementAst :=
  MkElement "b" [MkAttr "i18n" "m|d"]
    [AstText "B"; AstElement (MkElement "span" [] [AstElement image])].

Definition bold_part : Part :=
  MkPart (Some bold) None (Some (el_children bold)) (Some "m|d") true.


(** Siblings with a span between marker comments. *)
Definition siblings : list HtmlAst :=
  [AstComment "i18n"; AstElement (MkElement "c" [] [AstText "C"]); AstText "D";
   AstComment "/i18n"; AstText "E"].

Definition broken : HtmlElementAst :=
  MkElement "a" [MkAttr "i18n-title" "greeting"; MkAttr "title" "{{"] [].

(** More elements: one whose first prefixed attribute dangles and whose
    other attributes give messages; one whose [i18n-title] has an empty
    value beside a [title]; one whose tag is a name of [Object.prototype];
    and an image inside an expansion. *)
Definition mixed : HtmlElementAst :=
  MkElement "a"
    [MkAttr "i18n-alt" "picture"; MkAttr "i18n-href" "link"; MkAttr "href" "/";
     MkAttr "title" "Hello"]
    [].

Definition unmarked : HtmlElementAst :=
  MkElement "a" [MkAttr "i18n-title" ""; MkAttr "title" "Hello"] [].

Definition inherited : HtmlElementAst :=
  MkElement "constructor" [MkAttr "title" "Hello"] [].

Definition plural : HtmlAst :=
  AstExpansion "count" "plural" [("=0", [AstElement image])].



Definition span_part : Part :=
  MkPart None None
    (Some [AstText "B"; plural; AstElement (MkElement "span" [] [AstElement image])])
    (Some "m|d") true.

(** A markup parser on four well-formed documents; any other template is
    malformed. *)
Definition htmlParser (template _ : string) (_ : bool) : HtmlParseTreeResult :=
  if decide (template = "good") then
    MkHtmlParseTreeResult [AstElement anchor; AstElement bold] []
  else if decide (template = "dangling") then
    MkHtmlParseTreeResult [AstElement dangling; AstElement bold] []
  else if decide (template = "broken") then
    MkHtmlParseTreeResult [AstElement broken; AstElement bold] []
  else if decide (template = "unterminated") then
    MkHtmlParseTreeResult
      [AstElement dangling; AstComment "i18n: m|d"; AstElement bold] []
  else
    MkHtmlParseTreeResult [AstElement bold]
      [MkParseError template "Unexpected closing tag"].

Definition implicitAttrs : gmap string (list string) :=
  {[ "a" := ["title"]; "img" := ["alt"] ]}.

Definition extractor : MessageExtractor Parser :=
  MkMessageExtractor Parser htmlParser plain_parser [] implicitAttrs.

Definition failing_extractor : MessageExtractor Parser :=
  MkMessageExtractor Parser htmlParser failing_parser [] implicitAttrs.

Definition empty : Fields := MkFields [] [].

(** An element whose implicit [title] the failing parser fails on, a part
    whose text it fails on, the part of a text node, and an element with
    nothing to translate. *)
Definition faulty : HtmlElementAst :=
  MkElement "a" [MkAttr "i18n-href" "link"; MkAttr "href" "/"; MkAttr "title" "{{"] [].

Definition faulty_part : Part :=
  MkPart None None (Some [AstText "{{"]) (Some "m|d") true.

Definition text_part : Part :=
  MkPart None (Some (AstText "E")) None None false.

Definition childless_part : Part :=
  MkPart (Some anchor) None None (Some "m|d") true.

Definition plain : HtmlElementAst :=
  MkElement "div" [MkAttr "class" "box"; MkAttr "title" "Hello"] [AstText "A"].

End Sample.

(** * Properties *)

Close Scope string_scope.

(** ** removeDuplicates *)
Section RemoveDuplicatesFacts.

Variable id : Message → string.

Lemma contains_elem_of {V} (map : StringMapWrapper.StringMap V) key :
  StringMapWrapper.contains map key = true ↔ key ∈ map.*1.
Proof. unfold StringMapWrapper.contains. apply bool_decide_eq_true. Qed.

Lemma set_fresh {V} (map : StringMapWrapper.StringMap V) key (v : V) :
  key ∉ map.*1 → StringMapWrapper.set map key v = map ++ [(key, v)].
Proof.
  induction map as [|[k w] map IH]; intros Hfresh; [done|].
  cbn in *. apply not_elem_of_cons in Hfresh as [Hne Hfresh].
  rewrite decide_False by done. by rewrite IH.
Qed.

Lemma dedupe_from_ext seen1 seen2 l :
  (∀ i, i ∈ seen1 ↔ i ∈ seen2) →
  dedupe_from id seen1 l = dedupe_from id seen2 l.
Proof.
  revert seen1 seen2. induction l as [|m l IH]; intros seen1 seen2 Hseen; [done|].
  cbn. destruct (decide (id m ∈ seen1)) as [Hin|Hin].
  - rewrite decide_True by (by apply Hseen). by apply IH.
  - rewrite decide_False by (by rewrite <-Hseen). f_equal. apply IH.
    intros i. rewrite !elem_of_cons, Hseen. tauto.
Qed.

(** The loop of [removeDuplicates] appends to the map, in order, the first
    occurrences of the identities that are not among its keys. *)
Lemma removeDuplicates_loop (uniq : StringMapWrapper.StringMap Message) l :
  foldl (removeDuplicates_step id) uniq l
  = uniq ++ ((λ m, (id m, m)) <$> dedupe_from id uniq.*1 l).
Proof.
  revert uniq. induction l as [|m l IH]; intros uniq; cbn.
  { by rewrite app_nil_r. }
  rewrite IH. unfold removeDuplicates_step.
  destruct (decide (id m ∈ uniq.*1)) as [Hin|Hin].
  - by rewrite (proj2 (contains_elem_of uniq (id m)) Hin).
  - destruct (StringMapWrapper.contains uniq (id m)) eqn:Hc.
    { by apply contains_elem_of in Hc. }
    cbn. rewrite set_fresh by done. rewrite <-app_assoc. cbn. do 3 f_equal.
    apply dedupe_from_ext. intros i. rewrite fmap_app. cbn.
    rewrite elem_of_app, list_elem_of_singleton, elem_of_cons. tauto.
Qed.

(** [removeDuplicates] computes the deduplication of the specification. *)
Lemma removeDuplicates_dedupe l : removeDuplicates id l = dedupe id l.
Proof.
  unfold removeDuplicates, StringMapWrapper.values, StringMapWrapper.create, dedupe.
  rewrite removeDuplicates_loop. cbn. rewrite <-list_fmap_compose.
  generalize (dedupe_from id [] l). intros k.
  induction k as [|m k IH]; [done|]. cbn. by rewrite IH.
Qed.

Lemma dedupe_from_length seen l : length (dedupe_from id seen l) ≤ length l.
Proof.
  revert seen. induction l as [|m l IH]; intros seen; cbn; [lia|].
  case_decide; cbn; [specialize (IH seen)|specialize (IH (id m :: seen))]; lia.
Qed.

Lemma dedupe_from_elem_of seen l x :
  x ∈ dedupe_from id seen l → x ∈ l ∧ id x ∉ seen.
Proof.
  revert seen. induction l as [|m l IH]; intros seen; cbn.
  { by intros ?%elem_of_nil. }
  case_decide as Hin.
  - intros [??]%IH. split; [by right|done].
  - intros [->|[? Hx]%IH]%elem_of_cons; [split; [by left|done]|].
    split; [by right|]. intros ?. apply Hx. by right.
Qed.

Lemma dedupe_from_ids seen l i :
  i ∈ id <$> dedupe_from id seen l ↔ i ∈ id <$> l ∧ i ∉ seen.
Proof.
  revert seen. induction l as [|m l IH]; intros seen; cbn.
  { split; [by intros ?%elem_of_nil|by intros [?%elem_of_nil _]]. }
  case_decide as Hin; cbn; rewrite ?elem_of_cons, IH, ?not_elem_of_cons;
    destruct (decide (i = id m)) as [->|Hne]; tauto.
Qed.

Lemma dedupe_from_NoDup seen l : NoDup (id <$> dedupe_from id seen l).
Proof.
  revert seen. induction l as [|m l IH]; intros seen; cbn; [constructor|].
  case_decide; [apply IH|]. cbn. constructor; [|apply IH].
  rewrite dedupe_from_ids. intros [_ Hn]. apply Hn. by left.
Qed.

Lemma filter_none (l : list Message) i :
  i ∉ id <$> l → filter (λ m, id m = i) l = [].
Proof.
  induction l as [|m l IH]; [done|]. rewrite fmap_cons.
  intros [Hm Hl]%not_elem_of_cons. rewrite filter_cons. rewrite decide_False by done. by apply IH.
Qed.

Lemma once_of_NoDup (l : list Message) i :
  NoDup (id <$> l) → i ∈ id <$> l → length (filter (λ m, id m = i) l) = 1.
Proof.
  induction l as [|m l IH].
  { by intros _ ?%elem_of_nil. }
  rewrite fmap_cons. intros [Hm Hl]%NoDup_cons Hi.
  rewrite filter_cons. case_decide as Heq.
  - subst i. cbn. by rewrite filter_none.
  - apply IH; [done|]. apply elem_of_cons in Hi as [->|?]; done.
Qed.

Lemma dedupe_from_first seen l i :
  i ∉ seen →
  snd <$> first_with id i (dedupe_from id seen l) = snd <$> first_with id i l.
Proof.
  unfold first_with. revert seen. induction l as [|m l IH]; intros seen Hi; [done|].
  cbn. case_decide as Hin.
  - rewrite decide_False by (intros Heq; by rewrite Heq in Hin).
    rewrite IH by done. by destruct (list_find _ l) as [[??]|].
  - cbn. case_decide as Heq; [done|].
    assert (i ∉ id m :: seen) as Hi'.
    { rewrite not_elem_of_cons. split; [by intros ->|done]. }
    specialize (IH _ Hi').
    by destruct (list_find _ (dedupe_from _ _ _)) as [[??]|],
      (list_find _ l) as [[??]|].
Qed.

Lemma first_with_cons_ne m l i k x :
  id m ≠ i → first_with id i (m :: l) = Some (k, x) →
  ∃ k', k = S k' ∧ first_with id i l = Some (k', x).
Proof.
  unfold first_with. cbn. intros Hne. rewrite decide_False by done.
  destruct (list_find _ l) as [[k' x']|]; [|done].
  cbn. intros [= <- <-]. by exists k'.
Qed.

Lemma dedupe_from_order seen l j1 j2 x y k1 k2 x' y' :
  j1 < j2 →
  dedupe_from id seen l !! j1 = Some x →
  dedupe_from id seen l !! j2 = Some y →
  first_with id (id x) l = Some (k1, x') →
  first_with id (id y) l = Some (k2, y') →
  k1 < k2.
Proof.
  revert seen j1 j2 k1 k2. induction l as [|m l IH]; intros seen j1 j2 k1 k2 Hj; [done|].
  cbn [dedupe_from]. case_decide as Hin.
  - intros H1 H2 F1 F2.
    pose proof (dedupe_from_elem_of _ _ _ (list_elem_of_lookup_2 _ _ _ H1)) as [_ Hx].
    pose proof (dedupe_from_elem_of _ _ _ (list_elem_of_lookup_2 _ _ _ H2)) as [_ Hy].
    apply first_with_cons_ne in F1 as (k1' & -> & F1); [|by intros Heq; rewrite Heq in Hin].
    apply first_with_cons_ne in F2 as (k2' & -> & F2); [|by intros Heq; rewrite Heq in Hin].
    apply ->Nat.succ_lt_mono. by eapply IH.
  - destruct j2 as [|j2]; [lia|]. cbn [lookup list_lookup]. intros H1 H2 F1 F2.
    pose proof (dedupe_from_elem_of _ _ _ (list_elem_of_lookup_2 _ _ _ H2)) as [_ Hy].
    apply first_with_cons_ne in F2 as (k2' & -> & F2);
      [|intros Heq; apply Hy; rewrite Heq; by left].
    destruct j1 as [|j1].
    + injection H1 as <-. unfold first_with in F1. cbn in F1.
      rewrite decide_True in F1 by done. injection F1 as <- _. lia.
    + cbn in H1.
      pose proof (dedupe_from_elem_of _ _ _ (list_elem_of_lookup_2 _ _ _ H1)) as [_ Hx].
      apply first_with_cons_ne in F1 as (k1' & -> & F1);
        [|intros Heq; apply Hx; rewrite Heq; by left].
      apply ->Nat.succ_lt_mono. eapply IH; [|done..]. lia.
Qed.

(** C2. For every list of messages, [removeDuplicates] returns a list that is
    no longer than its input; every identity of the input occurs exactly once
    in it, and no other identity does; the message kept for an identity is
    the first message of the input with that identity; and the messages kept
    come in the order of these first occurrences. *)
Theorem removeDuplicates_first_occurrences (messages : list Message) :
  length (removeDuplicates id messages) ≤ length messages ∧
  (∀ i, i ∈ id <$> messages →
     length (filter (λ m, id m = i) (removeDuplicates id messages)) = 1) ∧
  (∀ i, i ∈ id <$> removeDuplicates id messages → i ∈ id <$> messages) ∧
  (∀ i, snd <$> first_with id i (removeDuplicates id messages)
        = snd <$> first_with id i messages) ∧
  (∀ j1 j2 x y k1 k2 x' y',
     j1 < j2 →
     removeDuplicates id messages !! j1 = Some x →
     removeDuplicates id messages !! j2 = Some y →
     first_with id (id x) messages = Some (k1, x') →
     first_with id (id y) messages = Some (k2, y') →
     k1 < k2).
Proof.
  rewrite removeDuplicates_dedupe. unfold dedupe. split_and!.
  - apply dedupe_from_length.
  - intros i Hi. apply once_of_NoDup; [apply dedupe_from_NoDup|].
    apply dedupe_from_ids. split; [done|]. by intros ?%elem_of_nil.
  - by intros i [? _]%dedupe_from_ids.
  - intros i. apply dedupe_from_first. by intros ?%elem_of_nil.
  - intros *. apply dedupe_from_order.
Qed.

End RemoveDuplicatesFacts.

(** ** The fields and the loops *)

Lemma pushed_nil s : pushed s [] [] = s.
Proof. destruct s. unfold pushed. cbn. by rewrite !app_nil_r. Qed.

Lemma pushed_pushed s ms es ms' es' :
  pushed (pushed s ms es) ms' es' = pushed s (ms ++ ms') (es ++ es').
Proof. unfold pushed. cbn. by rewrite !app_assoc. Qed.


Lemma bind_returned {A B} (c : M A) (k : A → M B) s a s' :
  c s = (Returned a, s') → bind c k s = k a s'.
Proof. unfold bind. by intros ->. Qed.

Lemma bind_thrown {A B} (c : M A) (k : A → M B) s e s' :
  c s = (Thrown e, s') → bind c k s = (Thrown e, s').
Proof. unfold bind. by intros ->. Qed.

Lemma forEach_app {A} (f : A → M unit) l1 l2 s :
  forEach f (l1 ++ l2) s = bind (forEach f l1) (λ _, forEach f l2) s.
Proof.
  revert s. induction l1 as [|x l1 IH]; intros s; [reflexivity|].
  cbn. unfold bind. destruct (f x s) as [[[]|e|] s1]; [|reflexivity..].
  rewrite IH. reflexivity.
Qed.

(** A loop stops at the first call that throws. *)
Lemma forEach_throws {A} (f : A → M unit) l1 x l2 s s1 e s2 :
  forEach f l1 s = (Returned (), s1) →
  f x s1 = (Thrown e, s2) →
  forEach f (l1 ++ x :: l2) s = (Thrown e, s2).
Proof.
  intros H1 Hx. rewrite forEach_app. erewrite bind_returned by done.
  cbn. by apply bind_thrown.
Qed.

Lemma indexOf_lower l x : (-1 ≤ indexOf l x)%Z.
Proof. induction l as [|z l IH]; cbn; [lia|]. repeat case_decide; lia. Qed.

Lemma indexOf_absent l x : indexOf l x = (-1)%Z ↔ x ∉ l.
Proof.
  induction l as [|y l IH]; cbn.
  { split; [by intros _ ?%elem_of_nil|done]. }
  rewrite not_elem_of_cons. pose proof (indexOf_lower l x) as Hlow.
  case_decide as Hy; [subst; split; [lia|tauto]|].
  case_decide as Hi.
  - split; [|done]. intros _. split; [congruence|by apply IH].
  - split; [lia|]. intros [_ Hx]. by apply IH in Hx.
Qed.

Lemma indexOf_present l x : (indexOf l x > -1)%Z ↔ x ∈ l.
Proof.
  pose proof (indexOf_lower l x) as Hlow.
  destruct (decide (x ∈ l)) as [Hin|Hin].
  - split; [done|]. intros _.
    destruct (decide (indexOf l x = -1)%Z) as [Heq|]; [|lia].
    by apply indexOf_absent in Heq.
  - apply indexOf_absent in Hin as Heq. split; [lia|done].
Qed.

(** ** The prefix and the base name *)

Lemma substring_0_length s : String.substring 0 (String.length s) s = s.
Proof. induction s as [|c s IH]; [done|]. cbn. by rewrite IH. Qed.

Lemma prefixed_iff attr : prefixed attr ↔ explicitly_translatable attr.
Proof.
  unfold prefixed, startsWith, explicitly_translatable.
  rewrite Is_true_true. apply String.prefix_correct.
Qed.

(** A name that starts with the prefix is the prefix followed by its base
    name. *)
Lemma prefixed_name attr :
  explicitly_translatable attr →
  attr_name attr = String.append "i18n-" (base_name attr).
Proof.
  unfold explicitly_translatable, base_name, substring_from, I18N_ATTR_PREFIX.
  destruct (attr_name attr) as [|c1 [|c2 [|c3 [|c4 [|c5 rest]]]]]; try done.
  cbn. intros [= -> -> -> -> ->]. by rewrite Nat.sub_0_r, substring_0_length.
Qed.

(** The base name of the prefix followed by a name is that name. *)
Lemma base_name_append attr name :
  attr_name attr = String.append "i18n-" name → base_name attr = name.
Proof.
  unfold base_name, substring_from, I18N_ATTR_PREFIX. intros ->.
  cbv [String.append]. fold String.append. cbn [String.length Nat.sub String.substring].
  rewrite ?Nat.sub_0_r. apply substring_0_length.
Qed.

(** ** The attributes of one element *)
Section AttributeFacts.

Context {Parser InterpolationConfig : Type}.
Context `{!Shared Parser InterpolationConfig}.
Variable this : MessageExtractor Parser.
Variable interpolationConfig : InterpolationConfig.
Variable p : HtmlElementAst.

Local Notation "'from_i18n' attr" :=
  (messageFromI18nAttribute (_parser this) interpolationConfig p attr)
  (at level 10, attr at level 9).
Local Notation "'from_attr' attr" :=
  (messageFromAttribute (_parser this) interpolationConfig attr)
  (at level 10, attr at level 9).

(** One turn of the first loop, by the completion of the builder. *)
Lemma explicit_loop_normal attr rest explicitAttrs s m :
  from_i18n attr = Normal m →
  explicit_loop this p interpolationConfig (attr :: rest) explicitAttrs s
  = explicit_loop this p interpolationConfig rest
      (explicitAttrs ++ [base_name attr]) (pushed s [m] []).
Proof.
  intros Hm. cbn. unfold bind at 1, try_catch, bind, pushed. rewrite Hm. cbn.
  by rewrite app_nil_r.
Qed.

Lemma explicit_loop_i18n_error attr rest explicitAttrs s e :
  from_i18n attr = Throw (I18nError e) →
  explicit_loop this p interpolationConfig (attr :: rest) explicitAttrs s
  = explicit_loop this p interpolationConfig rest
      (explicitAttrs ++ [base_name attr]) (pushed s [] [e]).
Proof.
  intros Hm. cbn. unfold bind at 1, try_catch, bind, pushed. rewrite Hm. cbn.
  by rewrite app_nil_r.
Qed.


(** The first loop over attributes whose builder throws nothing but i18n
    errors: every base name is recorded, every message and every error is
    pushed. *)
Lemma explicit_loop_quiet attrs explicitAttrs s :
  (∀ attr w, attr ∈ attrs → from_i18n attr ≠ Throw (OtherError w)) →
  explicit_loop this p interpolationConfig attrs explicitAttrs s
  = (Returned (explicitAttrs ++ (base_name <$> attrs)),
     pushed s (omap (λ attr, normal (from_i18n attr)) attrs)
       (omap (λ attr, i18n_error (from_i18n attr)) attrs)).
Proof.
  revert explicitAttrs s.
  induction attrs as [|attr rest IH]; intros explicitAttrs s Hquiet.
  { cbn. by rewrite pushed_nil, app_nil_r. }
  destruct (from_i18n attr) as [m|[e|w]] eqn:Hm.
  - rewrite (explicit_loop_normal _ _ _ _ m) by done.
    rewrite IH by (intros; apply Hquiet; by right).
    rewrite pushed_pushed. cbn. rewrite Hm. cbn. by rewrite <-app_assoc.
  - rewrite (explicit_loop_i18n_error _ _ _ _ e) by done.
    rewrite IH by (intros; apply Hquiet; by right).
    rewrite pushed_pushed. cbn. rewrite Hm. cbn. by rewrite <-app_assoc.
  - exfalso. eapply Hquiet; [by left|done].
Qed.

(** The second loop over attributes whose builder returns. *)
Lemma implicit_loop_quiet attrs s :
  (∀ attr, attr ∈ attrs → is_Some (normal (from_attr attr))) →
  forEach (λ attr, m <- call (from_attr attr) ;; push_message m) attrs s
  = (Returned (), pushed s (omap (λ attr, normal (from_attr attr)) attrs) []).
Proof.
  revert s. induction attrs as [|attr rest IH]; intros s Hquiet.
  { cbn. by rewrite pushed_nil. }
  destruct (Hquiet attr) as [m Hm]; [by left|].
  cbn. unfold bind at 1 2. destruct (from_attr attr) as [m'|]; [|done].
  cbn in *. injection Hm as ->. rewrite IH by (intros; apply Hquiet; by right).
  unfold pushed. cbn. by rewrite <-!app_assoc, app_nil_r.
Qed.

(** The prefixed attributes are the explicitly translatable ones. *)
Lemma explicit_attributes_spec :
  explicit_attributes p = filter explicitly_translatable (el_attrs p).
Proof.
  unfold explicit_attributes. apply list_filter_iff. intros attr.
  apply prefixed_iff.
Qed.

(** The base names recorded by the first loop are the names claimed. *)
Lemma claimed_iff attr :
  attr_name attr ∈ base_name <$> explicit_attributes p ↔ claimed p attr.
Proof.
  unfold claimed. rewrite !list_elem_of_fmap. split.
  - intros (a & Hname & [Ha Hin]%list_elem_of_filter). exists a. split; [|done].
    rewrite Hname. symmetry. by apply prefixed_name, prefixed_iff.
  - intros (a & Hname & Hin). exists a.
    split; [symmetry; by apply base_name_append|].
    apply list_elem_of_filter. split; [|done].
    apply prefixed_iff. unfold explicitly_translatable. rewrite <-Hname.
    by destruct (attr_name attr).
Qed.

(** The names that [transAttrs] lists are those of the entry of the tag. *)
Lemma trans_attrs_listed attr :
  attr_name attr ∈ trans_attrs this p ↔ listed this p attr.
Proof.
  unfold trans_attrs, listed, get_property.
  destruct (_implicitAttrs this !! el_name p); [done|]. by case_decide.
Qed.

(** The attributes kept by the three filters are the implicitly
    translatable ones. *)
Lemma implicit_attributes_spec :
  implicit_attributes this p = filter (implicitly_translatable this p) (el_attrs p).
Proof.
  unfold implicit_attributes, implicit_filter. rewrite !list_filter_filter.
  apply list_filter_iff. intros attr. unfold implicitly_translatable.
  rewrite indexOf_present, indexOf_absent, trans_attrs_listed.
  rewrite <-claimed_iff, <-prefixed_iff. tauto.
Qed.

(** When the table is readable for the tag, or lists a name for it,
    [transAttrs] is an array. *)
Lemma transAttrs_strings :
  readable this p ∨ trans_attrs this p ≠ [] →
  match get_property (_implicitAttrs this) (el_name p) with
  | Undefined => Strings []
  | present => present
  end = Strings (trans_attrs this p).
Proof.
  unfold readable, trans_attrs, get_property.
  destruct (_implicitAttrs this !! el_name p) as [l|]; [done|].
  case_decide as Hname; [|done]. intros [Hreadable|Hlisted]; [|done].
  by destruct (Hreadable Hname).
Qed.

(** An element for which [transAttrs] is an array and whose builders throw
    nothing but i18n errors from the first loop: the method returns,
    having pushed the messages and the errors of its attributes. *)
Lemma extractMessagesFromAttributes_returns s :
  readable this p ∨ trans_attrs this p ≠ [] →
  (∀ attr w, attr ∈ explicit_attributes p → from_i18n attr ≠ Throw (OtherError w)) →
  (∀ attr, attr ∈ implicit_attributes this p → is_Some (normal (from_attr attr))) →
  _extractMessagesFromAttributes this p interpolationConfig s
  = (Returned (),
     pushed s (attribute_messages this interpolationConfig p)
       (attribute_errors this interpolationConfig p)).
Proof.
  intros Hstrings Hexplicit Himplicit. unfold _extractMessagesFromAttributes.
  rewrite (transAttrs_strings Hstrings).
  erewrite bind_returned by (apply explicit_loop_quiet; intros; by apply Hexplicit).
  cbn [app filter_listed]. unfold bind at 1, ret.
  change (forEach (λ attr, bind (call (from_attr attr)) push_message)
            (implicit_attributes this p)
            (pushed s (explicit_messages this interpolationConfig p)
               (attribute_errors this interpolationConfig p))
          = (Returned (),
             pushed s (attribute_messages this interpolationConfig p)
               (attribute_errors this interpolationConfig p))).
  rewrite implicit_loop_quiet by apply Himplicit.
  by rewrite pushed_pushed, app_nil_r.
Qed.

(** The messages and the errors of the attributes are the expected ones. *)
Lemma attribute_messages_expected :
  attribute_messages this interpolationConfig p
  = expected_messages this interpolationConfig p ∧
  attribute_errors this interpolationConfig p
  = expected_errors this interpolationConfig p.
Proof.
  unfold attribute_messages, explicit_messages, implicit_messages,
    attribute_errors, expected_messages, expected_errors.
  by rewrite implicit_attributes_spec, explicit_attributes_spec.
Qed.

(** A quiet element: the method returns, having pushed the messages and the
    errors expected of its attributes. *)
Lemma extractMessagesFromAttributes_quiet s :
  quiet this interpolationConfig p →
  _extractMessagesFromAttributes this p interpolationConfig s
  = (Returned (),
     pushed s (expected_messages this interpolationConfig p)
       (expected_errors this interpolationConfig p)).
Proof.
  intros (Hreadable & Hexplicit & Himplicit).
  destruct attribute_messages_expected as [<- <-].
  apply extractMessagesFromAttributes_returns; [by left| |].
  - intros attr w. rewrite explicit_attributes_spec.
    intros [? ?]%list_elem_of_filter. by apply Hexplicit.
  - intros attr. rewrite implicit_attributes_spec.
    intros [? ?]%list_elem_of_filter. by apply Himplicit.
Qed.

End AttributeFacts.

(** ** The tree *)

(** Induction on a node, with the property on all the children of an
    element for hypothesis. *)
Lemma HtmlAst_forest_ind (P : HtmlAst → Prop) :
  (∀ v, P (AstText v)) →
  (∀ v, P (AstComment v)) →
  (∀ name attrs children,
     Forall P children → P (AstElement (MkElement name attrs children))) →
  (∀ switchValue type cases, P (AstExpansion switchValue type cases)) →
  ∀ n, P n.
Proof.
  intros Htext Hcomment Helement Hexpansion. fix IH 1.
  intros [v|v|[name attrs children]|switchValue type cases].
  - apply Htext.
  - apply Hcomment.
  - apply Helement. induction children as [|c children IHc]; constructor.
    + apply IH.
    + apply IHc.
  - apply Hexpansion.
Qed.



Section TreeFacts.

Context {Parser InterpolationConfig : Type}.
Context `{!Shared Parser InterpolationConfig}.
Variable this : MessageExtractor Parser.
Variable interpolationConfig : InterpolationConfig.

(** The messages and the errors of the attributes of a list of elements. *)
Local Notation "'messages_of' ps" :=
  (concat (expected_messages this interpolationConfig <$> ps))
  (at level 10, ps at level 9).
Local Notation "'errors_of' ps" :=
  (concat (expected_errors this interpolationConfig <$> ps))
  (at level 10, ps at level 9).

Lemma attributes_of_node_element p s :
  attributes_of_node this interpolationConfig (AstElement p) s
  = bind (_extractMessagesFromAttributes this p interpolationConfig)
      (λ _, forEach (attributes_of_node this interpolationConfig) (el_children p)) s.
Proof. by destruct p. Qed.










End TreeFacts.

(** ** The claims on the attributes of an element *)
Section AttributeClaims.

Context {Parser InterpolationConfig : Type}.
Context `{!Shared Parser InterpolationConfig}.
Variable this : MessageExtractor Parser.
Variable interpolationConfig : InterpolationConfig.

Local Notation "'from_i18n' p attr" :=
  (messageFromI18nAttribute (_parser this) interpolationConfig p attr)
  (at level 10, p at level 9, attr at level 9).
Local Notation "'from_attr' attr" :=
  (messageFromAttribute (_parser this) interpolationConfig attr)
  (at level 10, attr at level 9).
Local Notation "'run' p" :=
  (_extractMessagesFromAttributes this p interpolationConfig)
  (at level 10, p at level 9).

Lemma i18n_error_expected p attr e :
  attr ∈ el_attrs p → explicitly_translatable attr →
  from_i18n p attr = Throw (I18nError e) →
  e ∈ expected_errors this interpolationConfig p.
Proof.
  intros Hattr Hprefixed Hthrow. apply list_elem_of_omap. exists attr.
  split; [by apply list_elem_of_filter|]. by rewrite Hthrow.
Qed.

(** C5, amended. On an element on which nothing is thrown but i18n errors
    by the builders of the prefixed attributes, the messages pushed are, in
    order: for each attribute whose name starts with the prefix, the message
    built from it when the builder returns one (and none when it raises an
    i18n error, which is pushed on the errors); then one message for each
    attribute whose name does not start with the prefix, such that the
    element has no attribute named by the prefix followed by its name, and
    that the table of implicit attributes lists for the tag.  In particular
    an element with an [i18n-title] and a [title] attribute, [title] being
    implicit for its tag, gets one message, the one built from the
    [i18n-title] attribute, when the builder returns it. *)
Theorem attributes_yield_messages p s :
  quiet this interpolationConfig p →
  (run p s
   = (Returned (),
      pushed s
        (omap (λ attr, normal (from_i18n p attr))
           (filter explicitly_translatable (el_attrs p))
         ++ omap (λ attr, normal (from_attr attr))
              (filter (implicitly_translatable this p) (el_attrs p)))
        (omap (λ attr, i18n_error (from_i18n p attr))
           (filter explicitly_translatable (el_attrs p))))) ∧
  length (omap (λ attr, normal (from_attr attr))
            (filter (implicitly_translatable this p) (el_attrs p)))
  = length (filter (implicitly_translatable this p) (el_attrs p)) ∧
  (∀ v1 v2 m,
     el_attrs p = [MkAttr "i18n-title" v1; MkAttr "title" v2] →
     _implicitAttrs this !! el_name p = Some ["title"%string] →
     from_i18n p (MkAttr "i18n-title" v1) = Normal m →
     run p s = (Returned (), pushed s [m] [])).
Proof.
  intros Hquiet. rewrite extractMessagesFromAttributes_quiet by done.
  unfold expected_messages, expected_errors. split_and!.
  - done.
  - destruct Hquiet as (_ & _ & Himplicit).
    assert (∀ attr, attr ∈ filter (implicitly_translatable this p) (el_attrs p) →
      is_Some (normal (from_attr attr))) as Hall
      by (intros attr [? ?]%list_elem_of_filter; by apply Himplicit).
    induction (filter _ (el_attrs p)) as [|attr l IH]; [done|].
    destruct (Hall attr) as [m Hm]; [by left|]. cbn. rewrite Hm. cbn.
    f_equal. apply IH. intros; apply Hall; by right.
  - intros v1 v2 m Hattrs Htitle Hm.
    assert (filter explicitly_translatable (el_attrs p) = [MkAttr "i18n-title" v1])
      as -> by (by rewrite Hattrs).
    assert (filter (implicitly_translatable this p) (el_attrs p) = []) as ->.
    { rewrite Hattrs, filter_cons, decide_False by (by intros [Hn _]).
      rewrite filter_cons, decide_False; [done|].
      intros (_ & Hfree & _). apply Hfree. unfold claimed.
      rewrite Hattrs. by left. }
    cbn. by rewrite Hm.
Qed.

(** C10. When the builder raises an i18n error for a prefixed attribute, the
    first loop goes on with the base name of the attribute recorded among
    the explicit names, the name of the attribute being the prefix followed
    by that base name, and with the error pushed.  On an element on which
    nothing else is thrown, the method returns with the error and the
    messages of the other attributes, and an attribute that bears the base
    name is not among those a message is built from by the second loop,
    whatever the table lists. *)
Theorem failed_explicit_attribute_keeps_its_claim p s attr e :
  quiet this interpolationConfig p →
  attr ∈ el_attrs p →
  explicitly_translatable attr →
  from_i18n p attr = Throw (I18nError e) →
  (attr_name attr = String.append "i18n-" (base_name attr) ∧
   ∀ rest explicitAttrs s0,
     explicit_loop this p interpolationConfig (attr :: rest) explicitAttrs s0
     = explicit_loop this p interpolationConfig rest
         (explicitAttrs ++ [base_name attr]) (pushed s0 [] [e])) ∧
  run p s
  = (Returned (),
     pushed s
       (omap (λ a, normal (from_i18n p a))
          (filter explicitly_translatable (el_attrs p))
        ++ omap (λ b, normal (from_attr b))
             (filter (implicitly_translatable this p) (el_attrs p)))
       (expected_errors this interpolationConfig p)) ∧
  e ∈ expected_errors this interpolationConfig p ∧
  (∀ b, attr_name attr = String.append "i18n-" (attr_name b) →
        b ∉ filter (implicitly_translatable this p) (el_attrs p)).
Proof.
  intros Hquiet Hattr Hprefixed Hthrow. split_and!.
  - by apply prefixed_name.
  - intros rest explicitAttrs s0. by apply explicit_loop_i18n_error.
  - by apply extractMessagesFromAttributes_quiet.
  - by apply i18n_error_expected with attr.
  - intros b Hname [(_ & Hfree & _) _]%list_elem_of_filter. apply Hfree.
    unfold claimed. rewrite <-Hname. by apply list_elem_of_fmap_2.
Qed.


End AttributeClaims.

(** ** Unfolding the walk *)
Section WalkFacts.

Context {Parser InterpolationConfig : Type}.
Context `{!Shared Parser InterpolationConfig}.
Variable this : MessageExtractor Parser.
Variable interpolationConfig : InterpolationConfig.

Local Notation "'from_i18n' p attr" :=
  (messageFromI18nAttribute (_parser this) interpolationConfig p attr)
  (at level 10, p at level 9, attr at level 9).
Local Notation "'run' p" :=
  (_extractMessagesFromAttributes this p interpolationConfig)
  (at level 10, p at level 9).


Lemma recurse_unfold fuel nodes s :
  _recurse this (S fuel) (Some nodes) interpolationConfig s
  = forEach (λ part, _extractMessagesFromPart this fuel part interpolationConfig)
      (partition nodes (_implicitTags this)).1
      (pushed s [] (partition nodes (_implicitTags this)).2).
Proof.
  cbn [_recurse]. unfold bind, call_partition, pushed.
  destruct (partition nodes (_implicitTags this)) as [parts errs]. cbn.
  by rewrite app_nil_r.
Qed.

(** [extract] starts from empty fields, whatever the fields were. *)
Lemma extract_unfold fuel template sourceUrl config s :
  extract this fuel template sourceUrl config s
  = bind
      (extract_walk this fuel (_htmlParser this template sourceUrl true)
         (default DEFAULT_INTERPOLATION_CONFIG config))
      (λ _, extract_result (_htmlParser this template sourceUrl true))
      (MkFields [] []).
Proof. reflexivity. Qed.

End WalkFacts.

(** ** Errors during the walk *)
Section ErrorClaims.

Context {Parser InterpolationConfig : Type}.
Context `{!Shared Parser InterpolationConfig}.
Variable this : MessageExtractor Parser.
Variable interpolationConfig : InterpolationConfig.

Local Notation "'from_i18n' p attr" :=
  (messageFromI18nAttribute (_parser this) interpolationConfig p attr)
  (at level 10, p at level 9, attr at level 9).
Local Notation "'run' p" :=
  (_extractMessagesFromAttributes this p interpolationConfig)
  (at level 10, p at level 9).


End ErrorClaims.

(** ** What a method pushes does not depend on the fields *)

Lemma frame_ret {A} (a : A) : frame (ret a).
Proof. intros s. unfold ret. cbn. by rewrite pushed_nil. Qed.

Lemma frame_throw {A} e : frame (throw (A:=A) e).
Proof. intros s. unfold throw. cbn. by rewrite pushed_nil. Qed.

Lemma frame_call {A} (c : Completion A) : frame (call c).
Proof. destruct c; [apply frame_ret|apply frame_throw]. Qed.

Lemma frame_push_message m : frame (push_message m).
Proof. intros s. unfold push_message, pushed. cbn. by rewrite app_nil_r. Qed.

Lemma frame_push_error e : frame (push_error e).
Proof. intros s. unfold push_error, pushed. cbn. by rewrite app_nil_r. Qed.

Lemma frame_bind {A B} (c : M A) (k : A → M B) :
  frame c → (∀ a, frame (k a)) → frame (bind c k).
Proof.
  intros Hc Hk s. unfold bind. rewrite (Hc s).
  destruct (c (MkFields [] [])) as [[a|e|] s1]; cbn [fst snd]; [|done..].
  rewrite (Hk a (pushed s _ _)), (Hk a s1). cbn [fst snd].
  by rewrite pushed_pushed.
Qed.

Lemma frame_try_catch {A} (c : M A) (h : Exception → M A) :
  frame c → (∀ e, frame (h e)) → frame (try_catch c h).
Proof.
  intros Hc Hh s. unfold try_catch. rewrite (Hc s).
  destruct (c (MkFields [] [])) as [[a|e|] s1]; cbn [fst snd]; [done| |done].
  rewrite (Hh e (pushed s _ _)), (Hh e s1). cbn [fst snd].
  by rewrite pushed_pushed.
Qed.

Lemma frame_forEach {A} (f : A → M unit) l :
  (∀ x, x ∈ l → frame (f x)) → frame (forEach f l).
Proof.
  induction l as [|x l IH]; intros Hf; [apply frame_ret|].
  apply (frame_bind (f x) (λ _, forEach f l)); [apply Hf; by left|].
  intros _. apply IH. intros; apply Hf; by right.
Qed.

Lemma frame_grows {A} (c : M A) s : frame c → grows s (c s).2.
Proof. intros Hc. rewrite (Hc s). by eexists _, _. Qed.

Section FrameFacts.

Context {Parser InterpolationConfig : Type}.
Context `{!Shared Parser InterpolationConfig}.
Variable this : MessageExtractor Parser.
Variable interpolationConfig : InterpolationConfig.

Lemma frame_explicit_loop p attrs :
  ∀ explicitAttrs,
    frame (explicit_loop this p interpolationConfig attrs explicitAttrs).
Proof.
  induction attrs as [|attr rest IH]; intros explicitAttrs; [apply frame_ret|].
  cbn [explicit_loop]. apply frame_bind; [|intros _; apply IH].
  apply frame_try_catch.
  - apply frame_bind; [apply frame_call|intros m; apply frame_push_message].
  - intros [e|w]; [apply frame_push_error|apply frame_throw].
Qed.

Lemma frame_filter_listed transAttrs attrs : frame (filter_listed transAttrs attrs).
Proof.
  destruct transAttrs as [|l|]; cbn; try apply frame_ret;
    destruct attrs; try apply frame_ret; apply frame_throw.
Qed.

Lemma frame_extractMessagesFromAttributes p :
  frame (_extractMessagesFromAttributes this p interpolationConfig).
Proof.
  unfold _extractMessagesFromAttributes.
  apply frame_bind; [apply frame_explicit_loop|]. intros explicitAttrs.
  apply frame_bind; [apply frame_filter_listed|]. intros selected.
  apply frame_forEach. intros attr _.
  apply frame_bind; [apply frame_call|intros m; apply frame_push_message].
Qed.

Lemma frame_attributes_of_node n :
  frame (attributes_of_node this interpolationConfig n).
Proof.
  induction n as [v|v|name attrs children IH|switchValue type cases]
    using HtmlAst_forest_ind; try apply frame_ret.
  intros s. rewrite !attributes_of_node_element. revert s.
  apply (frame_bind (_extractMessagesFromAttributes this _ interpolationConfig)
           (λ _, forEach (attributes_of_node this interpolationConfig) _)).
  - apply frame_extractMessagesFromAttributes.
  - intros _. apply frame_forEach. intros c Hc.
    rewrite Forall_forall in IH. by apply IH.
Qed.

Lemma frame_recurseToExtractMessagesFromAttributes nodes :
  frame (_recurseToExtractMessagesFromAttributes this nodes interpolationConfig).
Proof.
  destruct nodes as [nodes|]; [|apply frame_throw].
  apply frame_forEach. intros n _. apply frame_attributes_of_node.
Qed.

Lemma frame_extractMessagesFromPart_over recurse part :
  (∀ nodes, frame (recurse nodes interpolationConfig)) →
  frame (extractMessagesFromPart_over this recurse part interpolationConfig).
Proof.
  intros Hrecurse. unfold extractMessagesFromPart_over, part_branch.
  apply frame_bind.
  - destruct (hasI18n part); [|apply Hrecurse].
    apply frame_bind; [apply frame_call|]. intros m.
    apply frame_bind; [apply frame_push_message|]. intros _.
    apply frame_recurseToExtractMessagesFromAttributes.
  - intros _. destruct (rootElement part) as [p|]; [|apply frame_ret].
    apply frame_extractMessagesFromAttributes.
Qed.

Lemma frame_call_partition nodes : frame (call_partition this nodes).
Proof.
  intros s. unfold call_partition.
  destruct (partition _ _) as [parts errs]. cbn. unfold pushed. cbn.
  by rewrite app_nil_r.
Qed.

Lemma frame_recurse fuel :
  ∀ nodes, frame (_recurse this fuel nodes interpolationConfig).
Proof.
  induction fuel as [|fuel IH]; intros [nodes|]; try apply frame_ret.
  - intros s. cbn. by rewrite pushed_nil.
  - cbn [_recurse]. apply frame_bind; [apply frame_call_partition|].
    intros parts. apply frame_forEach. intros part _.
    by apply frame_extractMessagesFromPart_over.
Qed.

Lemma frame_extract_walk fuel res :
  frame (extract_walk this fuel res interpolationConfig).
Proof.
  unfold extract_walk. case_decide; [apply frame_recurse|apply frame_ret].
Qed.

End FrameFacts.

(** ** extract *)
Section ExtractClaims.

Context {Parser InterpolationConfig : Type}.
Context `{!Shared Parser InterpolationConfig}.
Variable this : MessageExtractor Parser.

(** C1. When the markup parser reports at least one error, the walk is
    skipped, whatever the fuel, and [extract] returns a result without
    messages whose errors are those of the parser; the fields are left
    empty. *)
Theorem extract_short_circuit fuel template sourceUrl config s :
  0 < length (parse_errors (_htmlParser this template sourceUrl true)) →
  extract this fuel template sourceUrl config s
  = (Returned
       (MkExtractionResult [] (parse_errors (_htmlParser this template sourceUrl true))),
     MkFields [] []) ∧
  (∀ s0,
     extract_walk this fuel (_htmlParser this template sourceUrl true)
       (default DEFAULT_INTERPOLATION_CONFIG config) s0
     = (Returned (), s0)).
Proof.
  intros Herrors.
  assert (∀ s0, extract_walk this fuel (_htmlParser this template sourceUrl true)
                  (default DEFAULT_INTERPOLATION_CONFIG config) s0
                = (Returned (), s0)) as Hwalk.
  { intros s0. unfold extract_walk. rewrite decide_False by lia. done. }
  split; [|done]. rewrite extract_unfold.
  erewrite bind_returned by apply Hwalk. reflexivity.
Qed.

(** C4. The outcome of [extract] is a function of the template, the source
    URL, the interpolation configuration and the fuel: it is the same
    whatever the fields hold when it is called, in particular when it is
    called a second time on the instance; two results for the same input
    list the same contents, meanings and identities in the same order. *)
Theorem extract_deterministic (id : Message → string) fuel template sourceUrl
    config s s' :
  (extract this fuel template sourceUrl config s).1
  = (extract this fuel template sourceUrl config s').1 ∧
  extract this fuel template sourceUrl config
    (extract this fuel template sourceUrl config s).2
  = extract this fuel template sourceUrl config s ∧
  (∀ r r',
     (extract this fuel template sourceUrl config s).1 = Returned r →
     (extract this fuel template sourceUrl config s').1 = Returned r' →
     triples id (messages r) = triples id (messages r')).
Proof.
  split_and!.
  - by rewrite !extract_unfold.
  - by rewrite !extract_unfold.
  - intros r r'. rewrite !extract_unfold. intros -> [= ->]. done.
Qed.

(** C8, amended. The accumulators are the fields of the instance.  [extract]
    empties them when it starts, so that its outcome does not depend on what
    an earlier invocation left in them; when it returns, they hold the
    messages and the i18n errors of the result; and an invocation during
    which another invocation runs on the instance goes on from the fields
    the other one leaves. *)
(** [extract] from the fields [s1], without its two assignments: what is
    left of an invocation once another one has run on the instance. *)
Lemma extract_resumed fuel template sourceUrl config s r s2 s1 :
  extract this fuel template sourceUrl config s = (Returned r, s2) →
  bind
    (extract_walk this fuel (_htmlParser this template sourceUrl true)
       (default DEFAULT_INTERPOLATION_CONFIG config))
    (λ _, extract_result (_htmlParser this template sourceUrl true)) s1
  = (Returned
       (MkExtractionResult (_messages s1 ++ messages r) (_errors s1 ++ errors r)),
     pushed s1 (_messages s2) (_errors s2)).
Proof.
  rewrite extract_unfold. unfold bind, extract_result.
  rewrite (frame_extract_walk this _ fuel _ s1).
  destruct (extract_walk _ _ _ _ (MkFields [] [])) as [[[]|e|] s0]; [|done..].
  intros [= <- <-]. cbn. by rewrite app_assoc.
Qed.

(** C8, amended. The accumulators are the fields of the instance.  [extract]
    empties them when it starts: its outcome and the fields it leaves do
    not depend on what the fields held, so that what an invocation in
    progress had pushed is lost to the fields when another one starts.
    When [extract] returns, the fields hold the messages and the i18n
    errors of the result.  An invocation during whose call of the markup
    parser something else runs on the instance goes on from the fields this
    leaves: it returns what these fields hold followed by the messages and
    the errors it returns alone, or throws what it throws alone.  When what
    runs is an invocation of [extract], these fields hold its messages and
    its i18n errors: nothing when its template has parse errors, and then
    the outer invocation returns what it returns alone. *)
Theorem extract_accumulators_are_fields fuel template sourceUrl config s :
  (∀ s', extract this fuel template sourceUrl config s'
         = extract this fuel template sourceUrl config s) ∧
  (∀ r s1,
     extract this fuel template sourceUrl config s = (Returned r, s1) →
     messages r = _messages s1 ∧
     errors r = _errors s1 ++ parse_errors (_htmlParser this template sourceUrl true)) ∧
  (∀ (A : Type) (inner : M A) a s1 r s2,
     inner (MkFields [] []) = (Returned a, s1) →
     extract this fuel template sourceUrl config s = (Returned r, s2) →
     extract_reentered this inner fuel template sourceUrl config s
     = (Returned
          (MkExtractionResult (_messages s1 ++ messages r) (_errors s1 ++ errors r)),
        pushed s1 (_messages s2) (_errors s2))) ∧
  (∀ (A : Type) (inner : M A) a s1 x s2,
     inner (MkFields [] []) = (Returned a, s1) →
     extract this fuel template sourceUrl config s = (Thrown x, s2) →
     extract_reentered this inner fuel template sourceUrl config s
     = (Thrown x, pushed s1 (_messages s2) (_errors s2))) ∧
  (∀ fuel' template' sourceUrl' config' r' s1 r s2,
     extract this fuel' template' sourceUrl' config' s = (Returned r', s1) →
     extract this fuel template sourceUrl config s = (Returned r, s2) →
     extract_reentered this (extract this fuel' template' sourceUrl' config')
       fuel template sourceUrl config s
     = (Returned
          (MkExtractionResult (messages r' ++ messages r) (_errors s1 ++ errors r)),
        pushed s1 (_messages s2) (_errors s2))) ∧
  (∀ fuel' template' sourceUrl' config',
     0 < length (parse_errors (_htmlParser this template' sourceUrl' true)) →
     extract_reentered this (extract this fuel' template' sourceUrl' config')
       fuel template sourceUrl config s
     = extract this fuel template sourceUrl config s).
Proof.
  assert (∀ (A : Type) (inner : M A) a s1,
    inner (MkFields [] []) = (Returned a, s1) →
    extract_reentered this inner fuel template sourceUrl config s
    = bind
        (extract_walk this fuel (_htmlParser this template sourceUrl true)
           (default DEFAULT_INTERPOLATION_CONFIG config))
        (λ _, extract_result (_htmlParser this template sourceUrl true)) s1)
    as Hresume.
  { intros A inner a s1 Hinner. unfold extract_reentered. cbn.
    unfold bind at 1 2. cbn [extract_reset]. by rewrite Hinner. }
  split_and!.
  - intros s'. by rewrite !extract_unfold.
  - intros r s1. rewrite extract_unfold. unfold bind, extract_result.
    destruct (extract_walk _ _ _ _ _) as [[[]|e|] s2]; [|done..].
    by intros [= <- <-].
  - intros A inner a s1 r s2 Hinner Halone.
    rewrite (Hresume A inner a s1 Hinner). by eapply extract_resumed.
  - intros A inner a s1 x s2 Hinner. rewrite (Hresume A inner a s1 Hinner).
    rewrite extract_unfold. unfold bind, extract_result.
    rewrite (frame_extract_walk this _ fuel _ s1).
    destruct (extract_walk _ _ _ _ (MkFields [] [])) as [[[]|e|] s0]; [done| |done].
    by intros [= <- <-].
  - intros fuel' template' sourceUrl' config' r' s1 r s2 Hinner Halone.
    assert (messages r' = _messages s1) as ->.
    { revert Hinner. rewrite extract_unfold. unfold bind, extract_result.
      destruct (extract_walk _ _ _ _ _) as [[[]|e|] s0]; [|done..].
      by intros [= <- <-]. }
    rewrite (Hresume _ _ r' s1) by (by rewrite <-Hinner, !extract_unfold).
    by eapply extract_resumed.
  - intros fuel' template' sourceUrl' config' Herrors.
    rewrite (Hresume _ (extract this fuel' template' sourceUrl' config')
               (MkExtractionResult []
                  (parse_errors (_htmlParser this template' sourceUrl' true)))
               (MkFields [] [])).
    + by rewrite extract_unfold.
    + rewrite extract_unfold. unfold bind, extract_walk.
      rewrite decide_False by lia. done.
Qed.

End ExtractClaims.

(** ** The node partitioner *)
Section PartitionerFacts.

Variable markerAttr : string.
Variables opens closes : string → bool.
Variable marker_text : string → string.
Variable implicitTags : list string.

Local Abbreviation scan := (Partitioner.scan markerAttr opens closes marker_text implicitTags).
Local Abbreviation partition :=
  (λ siblings, Partitioner.partition markerAttr opens closes marker_text
                 siblings implicitTags).
Local Abbreviation single := (Partitioner.single markerAttr implicitTags).
Local Abbreviation span_part := (Partitioner.span_part marker_text).
Local Abbreviation _isOpeningComment := (Partitioner._isOpeningComment opens).
Local Abbreviation _isClosingComment := (Partitioner._isClosingComment closes).
Local Abbreviation nodes_of parts := (concat (Partitioner.part_nodes <$> parts)).

Lemma single_nodes n part :
  single n = Some part → Partitioner.part_nodes part = [n].
Proof. destruct n as [v|v|[name attrs children]|sv ty cases]; by intros [= <-]. Qed.

(** A node without part is a comment or an expansion. *)
Lemma single_is_Some n :
  is_Some (single n) ↔ (∃ p, n = AstElement p) ∨ (∃ v, n = AstText v).
Proof.
  destruct n as [v|v|p|sv ty cases]; cbn; split;
    try (intros [? [=]]); try (intros [[? [=]]|[? [=]]]); eauto.
Qed.

(** Outside a span, the nodes up to the first opening comment are taken
    one by one. *)
Lemma scan_outside pre rest :
  Forall (λ n, _isOpeningComment n = false) pre →
  scan None (pre ++ rest)
  = (omap single pre ++ (scan None rest).1, (scan None rest).2).
Proof.
  induction 1 as [|n pre Hn _ IH]; [cbn; by destruct (scan None rest)|].
  cbn [app Partitioner.scan]. rewrite IH.
  destruct n as [v|v|p|sv ty cases]; cbn in Hn |- *; [done| |done..].
  by rewrite Hn.
Qed.

(** Inside a span, the nodes up to the first closing comment are added to
    the span. *)
Lemma scan_inside v msgNodes span :
  Forall (λ n, _isClosingComment n = false) span →
  (∀ c rest,
     _isClosingComment c = true →
     scan (Some (v, msgNodes)) (span ++ c :: rest)
     = (span_part v (msgNodes ++ span) :: (scan None rest).1, (scan None rest).2)) ∧
  scan (Some (v, msgNodes)) span = ([], [Partitioner.missing_closing v]).
Proof.
  intros Hspan. revert msgNodes.
  induction Hspan as [|n span Hn _ IH]; intros msgNodes.
  - split; [|done]. intros c rest Hc. cbn [app Partitioner.scan].
    rewrite Hc, app_nil_r. by destruct (scan None rest).
  - destruct (IH (msgNodes ++ [n])) as [IH1 IH2]. split.
    + intros c rest Hc. cbn [app Partitioner.scan]. rewrite Hn.
      rewrite IH1 by done. by rewrite <-app_assoc.
    + cbn [Partitioner.scan]. by rewrite Hn.
Qed.

Lemma scan_sublist nodes :
  ∀ open,
    sublist (nodes_of (scan open nodes).1)
      (from_option snd [] open ++ nodes).
Proof.
  induction nodes as [|n nodes IH]; intros [[v msgNodes]|].
  - cbn. apply sublist_nil_l.
  - constructor.
  - cbn [Partitioner.scan]. destruct (_isClosingComment n).
    + specialize (IH None). destruct (scan None nodes) as [parts errs].
      cbn in IH |- *. apply sublist_app; [done|]. by apply sublist_cons.
    + specialize (IH (Some (v, msgNodes ++ [n]))). cbn in IH |- *.
      by rewrite <-app_assoc in IH.
  - cbn [Partitioner.scan from_option app].
    assert (sublist (nodes_of (scan None nodes).1) nodes) as Hrest
      by apply (IH None).
    assert (∀ m, (m = n) →
      sublist
        (nodes_of (let '(parts, errs) := scan None nodes in
            (from_option (λ part, part :: parts) parts (single m), errs)).1)
        (n :: nodes)) as Hsingle.
    { intros m ->. destruct (scan None nodes) as [parts errs]. cbn [fst] in *.
      destruct (single n) as [part|] eqn:Hpart; cbn [from_option].
      - rewrite fmap_cons. cbn [concat]. rewrite (single_nodes n part Hpart).
        by apply sublist_skip.
      - by apply sublist_cons. }
    destruct n as [v|v|p|sv ty cases]; try (by apply Hsingle).
    destruct (opens v).
    + specialize (IH (Some (v, []))). cbn in IH. by apply sublist_cons.
    + by apply sublist_cons.
Qed.

(** A node without part makes the parts stand for fewer nodes than there
    are siblings. *)
Lemma scan_drops nodes :
  Exists (λ n, ¬ is_Some (single n)) nodes →
  length (nodes_of (scan None nodes).1) < length nodes.
Proof.
  assert (∀ open l,
    length (nodes_of (scan open l).1) ≤ length (from_option snd [] open ++ l))
    as Hle by (intros; apply sublist_length, scan_sublist).
  induction nodes as [|n nodes IH]; [by intros ?%Exists_nil|].
  intros Hn. cbn [Partitioner.scan length].
  destruct n as [v|v|p|sv ty cases].
  - apply Exists_cons in Hn as [Hn|Hn]; [by destruct Hn; eexists|].
    specialize (IH Hn). destruct (scan None nodes) as [parts errs].
    cbn in IH |- *. lia.
  - destruct (opens v).
    + specialize (Hle (Some (v, [])) nodes). cbn in Hle. lia.
    + specialize (Hle None nodes). cbn in Hle. lia.
  - apply Exists_cons in Hn as [Hn|Hn]; [by destruct Hn; eexists|].
    specialize (IH Hn). destruct (scan None nodes) as [parts errs].
    cbn in IH |- *. lia.
  - specialize (Hle None nodes). destruct (scan None nodes) as [parts errs].
    cbn in Hle |- *. lia.
Qed.

Lemma single_nodes_all nodes :
  Forall (λ n, is_Some (single n)) nodes → nodes_of (omap single nodes) = nodes.
Proof.
  induction 1 as [|n nodes [part Hpart] _ IH]; [done|].
  cbn. rewrite Hpart. cbn. rewrite (single_nodes n part Hpart). by rewrite IH.
Qed.

(** C3, amended. The parts of a sibling list stand, in order, for nodes of
    the list, none twice: the part of an element for the element, the part
    of a text node for the node, the part of a span for the nodes between
    its opening comment and the first closing comment that follows.  The
    nodes up to the first opening comment are taken one by one, an element
    and a text node getting a part, a comment and an expansion none; after
    a span, the scan goes on in the same way; an opening comment that no
    closing comment follows is reported as an error, and neither it nor
    any of the nodes after it gets a part.  The parts stand for all the
    siblings exactly when these are elements and text nodes. *)
Theorem partition_parts_cover_siblings siblings :
  sublist (nodes_of (partition siblings).1) siblings ∧
  (nodes_of (partition siblings).1 = siblings
   ↔ Forall (λ n, is_Some (single n)) siblings) ∧
  (∀ n, is_Some (single n) ↔ (∃ p, n = AstElement p) ∨ (∃ v, n = AstText v)) ∧
  (∀ n part, single n = Some part → Partitioner.part_nodes part = [n]) ∧
  (∀ pre rest,
     Forall (λ n, _isOpeningComment n = false) pre →
     partition (pre ++ rest)
     = (omap single pre ++ (partition rest).1, (partition rest).2)) ∧
  (∀ v span c rest,
     opens v = true →
     Forall (λ n, _isClosingComment n = false) span →
     _isClosingComment c = true →
     partition (AstComment v :: span ++ c :: rest)
     = (span_part v span :: (partition rest).1, (partition rest).2)) ∧
  (∀ v rest,
     opens v = true →
     Forall (λ n, _isClosingComment n = false) rest →
     partition (AstComment v :: rest) = ([], [Partitioner.missing_closing v])).
Proof.
  split_and!.
  - apply (scan_sublist siblings None).
  - split.
    + intros Heq.
      destruct (decide (Forall (λ n, is_Some (single n)) siblings)) as [|Hnot];
        [done|].
      apply not_Forall_Exists in Hnot; [|apply _].
      apply scan_drops in Hnot. unfold Partitioner.partition in Heq.
      rewrite Heq in Hnot. lia.
    + intros Hall. unfold Partitioner.partition.
      rewrite <-(app_nil_r siblings) at 1. rewrite scan_outside.
      * cbn. rewrite app_nil_r. by apply single_nodes_all.
      * eapply Forall_impl; [done|].
        intros [v|v|p|sv ty cases] [part Hpart]; by cbn in *.
  - apply single_is_Some.
  - apply single_nodes.
  - intros pre rest. apply scan_outside.
  - intros v span c rest Hv Hspan Hc. unfold Partitioner.partition.
    cbn [Partitioner.scan]. rewrite Hv.
    by rewrite (proj1 (scan_inside v [] span Hspan) c rest Hc).
  - intros v rest Hv Hrest. unfold Partitioner.partition.
    cbn [Partitioner.scan]. rewrite Hv. by apply scan_inside.
Qed.

End PartitionerFacts.

(** ** The sample collaborators behave *)

Lemma sample_quiet p :
  el_name p ∉ Object_prototype_names → quiet Sample.extractor () p.
Proof.
  intros Hname. split_and!.
  - by intros ?.
  - intros attr w _ _. cbn. unfold Sample.messageFromI18nAttribute.
    by destruct (list_find _ _) as [[??]|].
  - intros attr _ _. by eexists.
Qed.

Lemma strict_quiet p :
  el_name p ∉ Object_prototype_names →
  @quiet _ _ Sample.strict_shared Sample.extractor () p.
Proof.
  intros Hname. split_and!.
  - by intros ?.
  - intros attr w _ _. cbn.
    unfold Sample.strict_messageFromI18nAttribute, Sample.messageFromI18nAttribute.
    case_decide; [done|]. by destruct (list_find _ _) as [[??]|].
  - intros attr _ _. by eexists.
Qed.

Lemma sample_names_readable name :
  bool_decide (name ∉ Object_prototype_names) = true →
  name ∉ Object_prototype_names.
Proof. apply bool_decide_eq_true_1. Qed.

(** ** The claims on the sample collaborators *)

(** C1 on a malformed template. *)
Lemma extract_short_circuit_sample :
  extract Sample.extractor 0 "<a></b>" "app.html" None Sample.empty
  = (Returned
       (MkExtractionResult []
          (parse_errors (Sample.htmlParser "<a></b>" "app.html" true))),
     MkFields [] []) ∧
  (∀ s0,
     extract_walk Sample.extractor 0 (Sample.htmlParser "<a></b>" "app.html" true)
       (default DEFAULT_INTERPOLATION_CONFIG None) s0
     = (Returned (), s0)).
Proof.
  apply (extract_short_circuit Sample.extractor 0 "<a></b>" "app.html" None
           Sample.empty).
  vm_compute. lia.
Defined.

(** C3: the children of the parts are not the siblings.  The part of a text
    node has no children, the children of the part of an element are those
    of the element, and the marker comments of a span are in no part. *)
Lemma partition_children_are_not_the_siblings :
  Partitioner.all_children (Sample.partition [AstText "E"] []).1 = [] ∧
  Partitioner.all_children (Sample.partition [AstElement Sample.anchor] []).1
  = [AstText "A"] ∧
  Partitioner.all_children (Sample.partition Sample.siblings []).1
  = [AstElement (MkElement "c" [] [AstText "C"]); AstText "D"] ∧
  Partitioner.all_children (Sample.partition Sample.siblings []).1
  ≠ Sample.siblings.
Proof. split_and!; [reflexivity..|]. vm_compute. discriminate. Qed.

(** C3, amended, on siblings with a span, and with an opening comment that
    nothing closes. *)
Lemma partition_parts_cover_siblings_sample :
  sublist
    (concat (Partitioner.part_nodes <$> (Sample.partition Sample.siblings []).1))
    Sample.siblings ∧
  Sample.partition Sample.siblings []
  = ([MkPart None None
        (Some [AstElement (MkElement "c" [] [AstText "C"]); AstText "D"])
        (Some "") true;
      MkPart None (Some (AstText "E")) None None false],
     []) ∧
  Sample.partition [AstComment "i18n: m|d"; AstElement Sample.bold] []
  = ([], [MkParseError "i18n: m|d" "Missing closing 'i18n' comment."]).
Proof.
  destruct (partition_parts_cover_siblings "i18n" (λ v, startsWith v "i18n")
              (String.eqb "/i18n") (substring_from 5) [] Sample.siblings)
    as (Hsublist & _ & _ & _ & _ & Hspan & _).
  destruct (partition_parts_cover_siblings "i18n" (λ v, startsWith v "i18n")
              (String.eqb "/i18n") (substring_from 5) []
              [AstComment "i18n: m|d"; AstElement Sample.bold])
    as (_ & _ & _ & _ & _ & _ & Hopen).
  split_and!.
  - exact Hsublist.
  - apply (Hspan "i18n" [AstElement (MkElement "c" [] [AstText "C"]); AstText "D"]
             (AstComment "/i18n") [AstText "E"]).
    + reflexivity.
    + repeat constructor.
    + reflexivity.
  - apply (Hopen "i18n: m|d" [AstElement Sample.bold]).
    + reflexivity.
    + repeat constructor.
Defined.

(** C5: the [i18n-title] attribute of an element without [title] has the
    prefix, and the element gets an error and no message. *)
Lemma prefixed_attribute_without_message :
  MkAttr "i18n-title" "greeting" ∈ el_attrs Sample.dangling ∧
  explicitly_translatable (MkAttr "i18n-title" "greeting") ∧
  _extractMessagesFromAttributes Sample.extractor Sample.dangling () Sample.empty
  = (Returned (), MkFields [] [MkParseError "a" "Missing attribute."]).
Proof. split_and!; [by left|done|reflexivity]. Qed.

(** C5, amended, on an element with [i18n-title] and [title]. *)
Lemma attributes_yield_messages_sample :
  _extractMessagesFromAttributes Sample.extractor Sample.anchor () Sample.empty
  = (Returned (),
     pushed Sample.empty
       [MkMessage "Hello" (Some "greeting|shown on hover") None] []).
Proof.
  destruct (attributes_yield_messages Sample.extractor () Sample.anchor
              Sample.empty) as (_ & _ & Htitle).
  { apply sample_quiet, sample_names_readable. reflexivity. }
  apply (Htitle "greeting|shown on hover" "Hello")%string.
  - reflexivity.
  - reflexivity.
  - reflexivity.
Defined.




(** C8: an invocation during which another one runs on the instance
    returns, before its own messages, those of the other one; alone it
    returns its own. *)
Lemma overlapping_invocations_share_fields :
  (extract_reentered Sample.extractor
     (extract Sample.extractor 5 "good" "app.html" None)
     5 "dangling" "app.html" None Sample.empty).1
  = Returned
      (MkExtractionResult
         [MkMessage "Hello" (Some "greeting|shown on hover") None;
          MkMessage "B" (Some "m|d") None; MkMessage "picture" None None;
          MkMessage "B" (Some "m|d") None; MkMessage "picture" None None]
         [MkParseError "a" "Missing attribute."]) ∧
  (extract Sample.extractor 5 "dangling" "app.html" None Sample.empty).1
  = Returned
      (MkExtractionResult
         [MkMessage "B" (Some "m|d") None; MkMessage "picture" None None]
         [MkParseError "a" "Missing attribute."]) ∧
  (extract_reentered Sample.extractor
     (extract Sample.extractor 5 "good" "app.html" None)
     5 "dangling" "app.html" None Sample.empty).1
  ≠ (extract Sample.extractor 5 "dangling" "app.html" None Sample.empty).1.
Proof. split_and!; [reflexivity..|]. vm_compute. discriminate. Qed.

(** C8, amended, on two invocations with i18n errors, and on an inner
    invocation on a malformed template. *)
Lemma extract_accumulators_are_fields_sample :
  extract_reentered Sample.extractor
    (extract Sample.extractor 5 "unterminated" "app.html" None)
    5 "dangling" "app.html" None Sample.empty
  = (Returned
       (MkExtractionResult
          [MkMessage "B" (Some "m|d") None; MkMessage "picture" None None]
          [MkParseError "i18n: m|d" "Missing closing 'i18n' comment.";
           MkParseError "a" "Missing attribute.";
           MkParseError "a" "Missing attribute."]),
     MkFields
       [MkMessage "B" (Some "m|d") None; MkMessage "picture" None None]
       [MkParseError "i18n: m|d" "Missing closing 'i18n' comment.";
        MkParseError "a" "Missing attribute.";
        MkParseError "a" "Missing attribute."]) ∧
  extract_reentered Sample.extractor
    (extract Sample.extractor 5 "<a></b>" "app.html" None)
    5 "dangling" "app.html" None Sample.empty
  = extract Sample.extractor 5 "dangling" "app.html" None Sample.empty.
Proof.
  destruct (extract_accumulators_are_fields Sample.extractor 5 "dangling"
              "app.html" None Sample.empty)
    as (_ & _ & _ & _ & Hboth & Hmalformed).
  split.
  - apply (Hboth 5 "unterminated" "app.html" None
             (MkExtractionResult []
                [MkParseError "i18n: m|d" "Missing closing 'i18n' comment.";
                 MkParseError "a" "Missing attribute."])
             (MkFields []
                [MkParseError "i18n: m|d" "Missing closing 'i18n' comment.";
                 MkParseError "a" "Missing attribute."])
             (MkExtractionResult
                [MkMessage "B" (Some "m|d") None; MkMessage "picture" None None]
                [MkParseError "a" "Missing attribute."])
             (MkFields
                [MkMessage "B" (Some "m|d") None; MkMessage "picture" None None]
                [MkParseError "a" "Missing attribute."])); reflexivity.
  - apply (Hmalformed 5 "<a></b>" "app.html" None). vm_compute. lia.
Defined.


(** C10 on an element whose [i18n-title] is refused by the builder and that
    has a [title], implicit for its tag: no message for the [title]. *)
Lemma failed_explicit_attribute_keeps_its_claim_sample :
  @_extractMessagesFromAttributes _ _ Sample.strict_shared Sample.extractor
    Sample.unmarked () Sample.empty
  = (Returned (), MkFields [] [MkParseError "a" "Empty marker."]) ∧
  MkAttr "title" "Hello" ∈ el_attrs Sample.unmarked ∧
  listed Sample.extractor Sample.unmarked (MkAttr "title" "Hello") ∧
  MkAttr "title" "Hello"
    ∉ filter (implicitly_translatable Sample.extractor Sample.unmarked)
        (el_attrs Sample.unmarked).
Proof.
  destruct (@failed_explicit_attribute_keeps_its_claim _ _ Sample.strict_shared
              Sample.extractor () Sample.unmarked Sample.empty
              (MkAttr "i18n-title" "") (MkParseError "a" "Empty marker."))
    as (_ & Hrun & _ & Hskip).
  - apply strict_quiet, sample_names_readable. reflexivity.
  - by left.
  - done.
  - reflexivity.
  - split_and!.
    + rewrite Hrun. reflexivity.
    + right. by left.
    + by left.
    + apply Hskip. reflexivity.
Defined.

(** * Further properties *)

(** ** removeDuplicates, further *)
Section RemoveDuplicatesMore.

Variable id : Message → string.

Lemma dedupe_from_sublist seen l : sublist (dedupe_from id seen l) l.
Proof.
  revert seen. induction l as [|m l IH]; intros seen; cbn; [constructor|].
  case_decide; [by apply sublist_cons|by apply sublist_skip].
Qed.

Lemma dedupe_from_fixed seen l :
  NoDup (id <$> l) → (∀ m, m ∈ l → id m ∉ seen) → dedupe_from id seen l = l.
Proof.
  revert seen. induction l as [|m l IH]; intros seen Hnodup Hseen; [done|].
  rewrite fmap_cons in Hnodup. apply NoDup_cons in Hnodup as [Hm Hnodup].
  cbn. rewrite decide_False by (apply Hseen; by left). f_equal.
  apply IH; [done|]. intros m' Hm'. rewrite not_elem_of_cons. split.
  - intros Heq. apply Hm. rewrite <-Heq. by apply list_elem_of_fmap_2.
  - apply Hseen. by right.
Qed.

Lemma dedupe_from_app seen l1 l2 :
  dedupe_from id seen (l1 ++ l2)
  = dedupe_from id seen l1 ++ dedupe_from id ((id <$> l1) ++ seen) l2.
Proof.
  revert seen. induction l1 as [|m l1 IH]; intros seen; [done|].
  cbn. case_decide as Hin.
  - rewrite IH. f_equal. apply dedupe_from_ext. intros i.
    rewrite elem_of_cons, !elem_of_app.
    destruct (decide (i = id m)) as [->|]; tauto.
  - cbn. f_equal. rewrite IH. f_equal. apply dedupe_from_ext. intros i.
    rewrite elem_of_cons, !elem_of_app, elem_of_cons. tauto.
Qed.

Lemma dedupe_from_filter seen seen' l :
  dedupe_from id (seen ++ seen') l
  = filter (λ m, id m ∉ seen) (dedupe_from id seen' l).
Proof.
  revert seen seen'. induction l as [|m l IH]; intros seen seen'; [done|].
  cbn [dedupe_from]. destruct (decide (id m ∈ seen')) as [Hin'|Hin'].
  - rewrite decide_True by (apply elem_of_app; by right). apply IH.
  - rewrite filter_cons. destruct (decide (id m ∈ seen)) as [Hin|Hin].
    + rewrite decide_True by (apply elem_of_app; by left).
      rewrite decide_False by tauto. rewrite <-IH.
      apply dedupe_from_ext. intros i. rewrite !elem_of_app, elem_of_cons.
      destruct (decide (i = id m)) as [->|]; tauto.
    + rewrite decide_False by (rewrite elem_of_app; tauto).
      rewrite decide_True by done. f_equal. rewrite <-IH.
      apply dedupe_from_ext. intros i.
      rewrite elem_of_cons, !elem_of_app, elem_of_cons. tauto.
Qed.

(** X1. Removing the duplicates of a list without duplicates changes
    nothing: a second [removeDuplicates] is the identity on the result of a
    first one. *)
Theorem removeDuplicates_idempotent (messages : list Message) :
  removeDuplicates id (removeDuplicates id messages)
  = removeDuplicates id messages.
Proof.
  rewrite !removeDuplicates_dedupe. unfold dedupe.
  apply dedupe_from_fixed; [apply dedupe_from_NoDup|].
  by intros m _ ?%elem_of_nil.
Qed.

(** X2. The messages kept by [removeDuplicates] are messages of the input,
    in the order of the input; and the input is returned as it is exactly
    when the identities of its messages are pairwise distinct. *)
Theorem removeDuplicates_sublist_fixed (messages : list Message) :
  sublist (removeDuplicates id messages) messages ∧
  (removeDuplicates id messages = messages ↔ NoDup (id <$> messages)).
Proof.
  rewrite removeDuplicates_dedupe. unfold dedupe. split.
  - apply dedupe_from_sublist.
  - split.
    + intros Heq. rewrite <-Heq. apply dedupe_from_NoDup.
    + intros Hnodup. apply dedupe_from_fixed; [done|].
      by intros m _ ?%elem_of_nil.
Qed.

(** X3. The duplicates of two lists put end to end: the messages kept from
    the first list, then those kept from the second list whose identity
    does not occur in the first. *)
Theorem removeDuplicates_app (l1 l2 : list Message) :
  removeDuplicates id (l1 ++ l2)
  = removeDuplicates id l1
    ++ filter (λ m, id m ∉ id <$> l1) (removeDuplicates id l2).
Proof.
  rewrite !removeDuplicates_dedupe. unfold dedupe.
  rewrite dedupe_from_app. f_equal. apply dedupe_from_filter.
Qed.

End RemoveDuplicatesMore.

(** ** The fields only grow *)

Lemma grows_refl s : grows s s.
Proof. exists [], []. by rewrite pushed_nil. Qed.

Lemma grows_trans s1 s2 s3 : grows s1 s2 → grows s2 s3 → grows s1 s3.
Proof.
  intros (ms & es & ->) (ms' & es' & ->). exists (ms ++ ms'), (es ++ es').
  apply pushed_pushed.
Qed.

Lemma bind_grows {A B} (c : M A) (k : A → M B) s :
  grows s (c s).2 → (∀ a s', grows s' (k a s').2) → grows s (bind c k s).2.
Proof.
  intros Hc Hk. unfold bind. destruct (c s) as [[a|e|] s1]; [|done..].
  apply grows_trans with s1; [done|apply Hk].
Qed.

Lemma forEach_grows {A} (f : A → M unit) l :
  (∀ x s, x ∈ l → grows s (f x s).2) → ∀ s, grows s (forEach f l s).2.
Proof.
  induction l as [|x l IH]; intros Hf s; [apply grows_refl|].
  cbn. apply bind_grows; [apply Hf; by left|].
  intros _ s'. apply IH. intros; apply Hf; by right.
Qed.

Lemma call_grows {A} (c : Completion A) s : grows s (call c s).2.
Proof. destruct c; apply grows_refl. Qed.

Lemma push_message_grows m s : grows s (push_message m s).2.
Proof. exists [m], []. unfold pushed, push_message. cbn. by rewrite app_nil_r. Qed.

Lemma push_error_grows e s : grows s (push_error e s).2.
Proof. exists [], [e]. unfold pushed, push_error. cbn. by rewrite app_nil_r. Qed.

Section GrowFacts.

Context {Parser InterpolationConfig : Type}.
Context `{!Shared Parser InterpolationConfig}.
Variable this : MessageExtractor Parser.
Variable interpolationConfig : InterpolationConfig.

Lemma explicit_loop_grows p attrs :
  ∀ explicitAttrs s,
    grows s (explicit_loop this p interpolationConfig attrs explicitAttrs s).2.
Proof.
  induction attrs as [|attr rest IH]; intros explicitAttrs s; [apply grows_refl|].
  cbn [explicit_loop]. apply bind_grows; [|intros _ s'; apply IH].
  unfold try_catch, bind.
  destruct (messageFromI18nAttribute _ _ _ _) as [m|[e|w]]; cbn.
  - apply push_message_grows.
  - apply push_error_grows.
  - apply grows_refl.
Qed.

Lemma extractMessagesFromAttributes_grows p s :
  grows s (_extractMessagesFromAttributes this p interpolationConfig s).2.
Proof.
  unfold _extractMessagesFromAttributes.
  apply bind_grows; [apply explicit_loop_grows|]. intros explicitAttrs s'.
  apply bind_grows; [apply frame_grows, frame_filter_listed|]. intros selected s0.
  apply forEach_grows. intros attr s1 _.
  apply bind_grows; [apply call_grows|]. intros m s2. apply push_message_grows.
Qed.

Lemma attributes_of_node_grows n :
  ∀ s, grows s (attributes_of_node this interpolationConfig n s).2.
Proof.
  induction n as [v|v|name attrs children IH|switchValue type cases]
    using HtmlAst_forest_ind; intros s; try apply grows_refl.
  rewrite attributes_of_node_element.
  apply bind_grows; [apply extractMessagesFromAttributes_grows|].
  intros _ s'. apply forEach_grows. intros c s0 Hc.
  rewrite Forall_forall in IH. by apply IH.
Qed.

Lemma recurseToExtractMessagesFromAttributes_grows nodes s :
  grows s (_recurseToExtractMessagesFromAttributes this nodes interpolationConfig s).2.
Proof.
  destruct nodes as [nodes|]; [|apply grows_refl].
  apply forEach_grows. intros n s' _. apply attributes_of_node_grows.
Qed.

Lemma extractMessagesFromPart_over_grows recurse part s :
  (∀ nodes s', grows s' (recurse nodes interpolationConfig s').2) →
  grows s (extractMessagesFromPart_over this recurse part interpolationConfig s).2.
Proof.
  intros Hrecurse. unfold extractMessagesFromPart_over, part_branch.
  apply bind_grows.
  - destruct (hasI18n part); [|apply Hrecurse].
    apply bind_grows; [apply call_grows|]. intros m s1.
    apply bind_grows; [apply push_message_grows|]. intros _ s2.
    apply recurseToExtractMessagesFromAttributes_grows.
  - intros _ s'. destruct (rootElement part) as [p|]; [|apply grows_refl].
    apply extractMessagesFromAttributes_grows.
Qed.

Lemma call_partition_grows nodes s :
  grows s (call_partition this nodes s).2.
Proof.
  unfold call_partition. destruct (partition _ _) as [parts errs]. cbn.
  exists [], errs. unfold pushed. cbn. by rewrite app_nil_r.
Qed.

Lemma recurse_grows fuel :
  ∀ nodes s, grows s (_recurse this fuel nodes interpolationConfig s).2.
Proof.
  induction fuel as [|fuel IH]; intros [nodes|] s; try apply grows_refl.
  cbn [_recurse]. apply bind_grows; [apply call_partition_grows|].
  intros parts s'. apply forEach_grows. intros part s0 _.
  by apply extractMessagesFromPart_over_grows.
Qed.

(** X4. Whatever the collaborators do and however a method ends, by a
    return, by a throw or cut by the bound, each method of the walk only
    pushes on the fields: the messages and the errors held when it is called
    are still there, in place, at the head of the fields it leaves. *)
Theorem walk_only_pushes fuel s :
  (∀ p, grows s (_extractMessagesFromAttributes this p interpolationConfig s).2) ∧
  (∀ nodes,
     grows s (_recurseToExtractMessagesFromAttributes this nodes interpolationConfig s).2) ∧
  (∀ part, grows s (_extractMessagesFromPart this fuel part interpolationConfig s).2) ∧
  (∀ nodes, grows s (_recurse this fuel nodes interpolationConfig s).2).
Proof.
  split_and!.
  - intros p. apply extractMessagesFromAttributes_grows.
  - intros nodes. apply recurseToExtractMessagesFromAttributes_grows.
  - intros part. apply extractMessagesFromPart_over_grows. apply recurse_grows.
  - intros nodes. apply recurse_grows.
Qed.

(** The errors pushed by [partition] come first among those [_recurse]
    adds, however it ends. *)
Lemma recurse_keeps_partition_errors fuel nodes s :
  ∃ ms es,
    (_recurse this (S fuel) (Some nodes) interpolationConfig s).2
    = pushed s ms ((partition nodes (_implicitTags this)).2 ++ es).
Proof.
  rewrite recurse_unfold.
  destruct (forEach_grows
    (λ part, _extractMessagesFromPart this fuel part interpolationConfig)
    (partition nodes (_implicitTags this)).1) with
    (s := pushed s [] (partition nodes (_implicitTags this)).2)
    as (ms & es & Hgrows).
  { intros part s' _. apply extractMessagesFromPart_over_grows, recurse_grows. }
  exists ms, es. by rewrite Hgrows, pushed_pushed.
Qed.

End GrowFacts.

(** ** Throws outside the handler, absent children, counts *)
Section MoreFacts.

Context {Parser InterpolationConfig : Type}.
Context `{!Shared Parser InterpolationConfig}.
Variable this : MessageExtractor Parser.
Variable interpolationConfig : InterpolationConfig.

Local Notation "'from_i18n' p attr" :=
  (messageFromI18nAttribute (_parser this) interpolationConfig p attr)
  (at level 10, p at level 9, attr at level 9).
Local Notation "'from_attr' attr" :=
  (messageFromAttribute (_parser this) interpolationConfig attr)
  (at level 10, attr at level 9).
Local Notation "'run' p" :=
  (_extractMessagesFromAttributes this p interpolationConfig)
  (at level 10, p at level 9).

Lemma filter_none_of {A} (P : A → Prop) `{!∀ a, Decision (P a)} (l : list A) :
  (∀ a, a ∈ l → ¬ P a) → filter P l = [].
Proof.
  induction l as [|a l IH]; intros Hnone; [done|].
  rewrite filter_cons, decide_False by (apply Hnone; by left).
  apply IH. intros; apply Hnone; by right.
Qed.

(** When the three filters keep an attribute, [transAttrs] lists a name. *)
Lemma implicit_attributes_listed p :
  implicit_attributes this p ≠ [] → trans_attrs this p ≠ [].
Proof.
  intros Hkept Hnil. apply Hkept. unfold implicit_attributes, implicit_filter.
  rewrite Hnil. apply filter_none_of. intros attr _. cbn. lia.
Qed.

(** X5. The second loop of [_extractMessagesFromAttributes] has no handler:
    when the builder throws for an implicit attribute, be it an
    [I18nError], the method throws the same value; the messages and errors
    of the prefixed attributes and the messages of the implicit attributes
    before it are pushed, the error thrown is not, and the implicit
    attributes after it are not looked at. *)
Theorem implicit_attribute_throw_propagates p s pre attr post x :
  (∀ a w, a ∈ explicit_attributes p → from_i18n p a ≠ Throw (OtherError w)) →
  implicit_attributes this p = pre ++ attr :: post →
  (∀ a, a ∈ pre → is_Some (normal (from_attr a))) →
  from_attr attr = Throw x →
  run p s
  = (Thrown x,
     pushed s
       (explicit_messages this interpolationConfig p
          ++ omap (λ a, normal (from_attr a)) pre)
       (attribute_errors this interpolationConfig p)).
Proof.
  intros Hexplicit Hsplit Hpre Hthrow. unfold _extractMessagesFromAttributes.
  rewrite (transAttrs_strings this p)
    by (right; apply implicit_attributes_listed; rewrite Hsplit; by destruct pre).
  erewrite bind_returned by (apply explicit_loop_quiet; intros; by apply Hexplicit).
  cbn [app filter_listed]. unfold bind at 1, ret.
  change (forEach (λ a, bind (call (from_attr a)) push_message)
            (implicit_attributes this p)
            (pushed s (explicit_messages this interpolationConfig p)
               (attribute_errors this interpolationConfig p))
          = (Thrown x,
             pushed s
               (explicit_messages this interpolationConfig p
                  ++ omap (λ a, normal (from_attr a)) pre)
               (attribute_errors this interpolationConfig p))).
  rewrite Hsplit.
  rewrite (forEach_throws _ pre attr post _
             (pushed (pushed s (explicit_messages this interpolationConfig p)
                        (attribute_errors this interpolationConfig p))
                (omap (λ a, normal (from_attr a)) pre) []) x
             (pushed (pushed s (explicit_messages this interpolationConfig p)
                        (attribute_errors this interpolationConfig p))
                (omap (λ a, normal (from_attr a)) pre) [])).
  - by rewrite pushed_pushed, app_nil_r.
  - by apply implicit_loop_quiet.
  - unfold bind. by rewrite Hthrow.
Qed.

(** X6. The creation of the message of a part to translate has no handler
    either: when [createMessage] throws, be it an [I18nError],
    [_extractMessagesFromPart] throws the same value, nothing is pushed, and
    neither the children nor the root element of the part are looked at. *)
Theorem createMessage_throw_propagates fuel part s x :
  hasI18n part = true →
  createMessage part (_parser this) interpolationConfig = Throw x →
  _extractMessagesFromPart this fuel part interpolationConfig s = (Thrown x, s).
Proof.
  intros Hi18n Hthrow.
  unfold _extractMessagesFromPart, extractMessagesFromPart_over, part_branch.
  rewrite Hi18n. apply bind_thrown. apply bind_thrown. by rewrite Hthrow.
Qed.

(** X7. A part without children.  When it is not to be translated,
    [_recurse] does nothing, whatever the fuel, and the method comes down to
    the attributes of the root element, if any.  When it is to be
    translated, the attribute walk has no guard: the message of the part is
    pushed, then the method throws, before the root element is looked at. *)
Theorem part_without_children fuel part s :
  children part = None →
  (hasI18n part = false →
   _extractMessagesFromPart this fuel part interpolationConfig s
   = match rootElement part with
     | Some p => run p s
     | None => (Returned (), s)
     end) ∧
  (∀ m,
     hasI18n part = true →
     createMessage part (_parser this) interpolationConfig = Normal m →
     _extractMessagesFromPart this fuel part interpolationConfig s
     = (Thrown (OtherError "TypeError"), pushed s [m] [])).
Proof.
  intros Hchildren.
  unfold _extractMessagesFromPart, extractMessagesFromPart_over, part_branch.
  rewrite Hchildren. split.
  - intros ->. assert (_recurse this fuel None interpolationConfig s
                       = (Returned (), s)) as Hnone by (by destruct fuel).
    erewrite bind_returned by exact Hnone. by destruct (rootElement part).
  - intros m -> Hm. rewrite Hm. apply bind_thrown.
    unfold bind. cbn. unfold pushed. by rewrite app_nil_r.
Qed.

Lemma omap_one_of {A B C} (f : A → option B) (g : A → option C) (l : list A) :
  (∀ a, a ∈ l → (is_Some (f a) ∧ g a = None) ∨ (f a = None ∧ is_Some (g a))) →
  length (omap f l) + length (omap g l) = length l.
Proof.
  induction l as [|a l IH]; intros Hone; [done|].
  specialize (IH (λ b Hb, Hone b (list_elem_of_further _ _ _ Hb))).
  cbn. destruct (Hone a) as [[[b Hb] Hg]|[Hf [c Hc]]]; [by left|..].
  - rewrite Hb, Hg. cbn. lia.
  - rewrite Hf, Hc. cbn. lia.
Qed.

Lemma omap_all {A B} (f : A → option B) (l : list A) :
  (∀ a, a ∈ l → is_Some (f a)) → length (omap f l) = length l.
Proof.
  induction l as [|a l IH]; intros Hall; [done|].
  cbn. destruct (Hall a) as [b Hb]; [by left|]. rewrite Hb. cbn.
  f_equal. apply IH. intros; apply Hall; by right.
Qed.

Lemma filter_exclusive {A} (P Q : A → Prop) `{!∀ a, Decision (P a)}
    `{!∀ a, Decision (Q a)} (l : list A) :
  (∀ a, P a → Q a → False) →
  length (filter P l) + length (filter Q l) ≤ length l.
Proof.
  intros Hexcl. induction l as [|a l IH]; [done|].
  rewrite !filter_cons. specialize (Hexcl a).
  repeat case_decide; cbn; try lia. tauto.
Qed.

(** X8. On an element on which nothing is thrown but i18n errors by the
    builders of the prefixed attributes, every explicitly translatable
    attribute gives one message or one error, never both, every implicitly
    translatable attribute gives one message, and no attribute is both: the
    messages and errors pushed are as many as the explicitly and the
    implicitly translatable attributes together, at most one for each
    attribute of the element. *)
Theorem one_outcome_per_attribute p s :
  quiet this interpolationConfig p →
  ∃ ms es,
    run p s = (Returned (), pushed s ms es) ∧
    length ms + length es
    = length (filter explicitly_translatable (el_attrs p))
      + length (filter (implicitly_translatable this p) (el_attrs p)) ∧
    length es ≤ length (filter explicitly_translatable (el_attrs p)) ∧
    length ms + length es ≤ length (el_attrs p).
Proof.
  intros Hquiet. pose proof Hquiet as (_ & Hexplicit & Himplicit).
  rewrite <-explicit_attributes_spec, <-(implicit_attributes_spec this).
  exists (attribute_messages this interpolationConfig p),
    (attribute_errors this interpolationConfig p).
  assert (length (explicit_messages this interpolationConfig p)
          + length (attribute_errors this interpolationConfig p)
          = length (explicit_attributes p)) as Hone.
  { apply omap_one_of. intros a Ha.
    destruct (from_i18n p a) as [m|[e|w]] eqn:Hm; cbn.
    - left. by split; [eexists|].
    - right. by split; [|eexists].
    - apply list_elem_of_filter in Ha as [Ha Hin].
      by destruct (Hexplicit a w Hin (proj1 (prefixed_iff a) Ha)). }
  assert (length (implicit_messages this interpolationConfig p)
          = length (implicit_attributes this p)) as Hall.
  { apply omap_all. intros a. rewrite implicit_attributes_spec.
    intros [? ?]%list_elem_of_filter. by apply Himplicit. }
  assert (length (explicit_attributes p) + length (implicit_attributes this p)
          ≤ length (el_attrs p)) as Hexcl.
  { rewrite implicit_attributes_spec. unfold explicit_attributes.
    apply filter_exclusive. intros a Ha (Hn & _). by apply Hn, prefixed_iff. }
  split_and!.
  - destruct (attribute_messages_expected this interpolationConfig p) as [-> ->].
    by apply extractMessagesFromAttributes_quiet.
  - unfold attribute_messages. rewrite length_app. lia.
  - lia.
  - unfold attribute_messages. rewrite length_app. lia.
Qed.

(** X9. An element none of whose attributes is explicitly translatable or
    listed for its tag in the table of implicit attributes, the table being
    readable for the tag, leaves the fields as they are: the method returns
    without consulting a builder. *)
Theorem element_with_nothing_to_translate p s :
  readable this p →
  (∀ attr, attr ∈ el_attrs p → ¬ explicitly_translatable attr) →
  (∀ attr, attr ∈ el_attrs p → ¬ listed this p attr) →
  run p s = (Returned (), s).
Proof.
  intros Hreadable Hprefixed Hlisted.
  unfold _extractMessagesFromAttributes.
  rewrite (transAttrs_strings this p) by (by left).
  rewrite (filter_none_of (λ attr, prefixed attr))
    by (intros attr Hattr ?%prefixed_iff; by eapply Hprefixed).
  cbn [explicit_loop filter_listed]. unfold bind at 1 2. cbn [ret].
  rewrite (filter_none_of (λ attr, (indexOf (trans_attrs this p) (attr_name attr) > -1)%Z));
    [done|].
  intros attr [_ Hattr]%list_elem_of_filter.
  apply list_elem_of_filter in Hattr as [_ Hattr].
  rewrite indexOf_present, trans_attrs_listed. by apply Hlisted.
Qed.

(** X12. The table of implicit attributes is read as a property of an
    object: for a tag that is a name of [Object.prototype] and not a key of
    the table, what is read is not an array.  The first loop runs as for
    any element; then, if an attribute is left by the first two filters of
    the second loop, that is one that is neither explicitly translatable
    nor claimed, the method throws a [TypeError], and otherwise it
    returns. *)
Theorem inherited_member_is_not_an_array p s :
  el_name p ∈ Object_prototype_names →
  _implicitAttrs this !! el_name p = None →
  (∀ attr w, attr ∈ el_attrs p → explicitly_translatable attr →
     from_i18n p attr ≠ Throw (OtherError w)) →
  run p s
  = (if decide (Exists (λ attr, ¬ explicitly_translatable attr ∧ ¬ claimed p attr)
                  (el_attrs p))
     then Thrown (OtherError "TypeError") else Returned (),
     pushed s
       (omap (λ attr, normal (from_i18n p attr))
          (filter explicitly_translatable (el_attrs p)))
       (omap (λ attr, i18n_error (from_i18n p attr))
          (filter explicitly_translatable (el_attrs p)))).
Proof.
  intros Hname Hown Hexplicit. unfold _extractMessagesFromAttributes.
  assert (get_property (_implicitAttrs this) (el_name p) = Inherited) as ->
    by (unfold get_property; by rewrite Hown, decide_True).
  erewrite bind_returned.
  2:{ apply explicit_loop_quiet. intros attr w [Ha Hin]%list_elem_of_filter.
      apply Hexplicit; [done|by apply prefixed_iff]. }
  cbn [app]. rewrite <-explicit_attributes_spec.
  change (filter (λ attr, prefixed attr) (el_attrs p)) with (explicit_attributes p).
  rewrite list_filter_filter.
  rewrite (list_filter_iff _
             (λ attr, ¬ explicitly_translatable attr ∧ ¬ claimed p attr)).
  2:{ intros attr. rewrite indexOf_absent, claimed_iff, prefixed_iff. tauto. }
  case_decide as Hleft.
  - apply Exists_exists in Hleft as (attr & Hin & Hattr).
    destruct (filter _ (el_attrs p)) as [|a l] eqn:Hfilter.
    + assert (attr ∈ filter (λ attr, ¬ explicitly_translatable attr ∧ ¬ claimed p attr)
                (el_attrs p)) as Hkept by (by apply list_elem_of_filter).
      rewrite Hfilter in Hkept. by apply elem_of_nil in Hkept.
    + done.
  - rewrite filter_none_of; [done|].
    intros attr Hin Hattr. apply Hleft, Exists_exists. by exists attr.
Qed.

(** X10. The errors of a result are never a mix: when [extract] returns,
    either the markup parser reported no error and the errors are the i18n
    errors left in the fields, or it reported some, and they are the errors
    of the result, which has no message. *)
Theorem extract_errors_of_one_kind fuel template sourceUrl config s r s1 :
  extract this fuel template sourceUrl config s = (Returned r, s1) →
  (parse_errors (_htmlParser this template sourceUrl true) = [] ∧
   messages r = _messages s1 ∧ errors r = _errors s1) ∨
  (parse_errors (_htmlParser this template sourceUrl true) ≠ [] ∧
   messages r = [] ∧
   errors r = parse_errors (_htmlParser this template sourceUrl true) ∧
   s1 = MkFields [] []).
Proof.
  rewrite extract_unfold. unfold bind, extract_result, extract_walk.
  case_decide as Herrors.
  - apply length_zero_iff_nil in Herrors.
    destruct (_recurse _ _ _ _ _) as [[[]|e|] s2]; [|done..].
    intros [= <- <-]. left. cbn. by rewrite Herrors, app_nil_r.
  - cbn. intros [= <- <-]. right. split_and!; [|done..].
    intros Hnil. by rewrite Hnil in Herrors.
Qed.

(** X11. The errors that [partition] reports for the root nodes are never
    lost: when [extract] returns for a template without parse error, the
    errors of the result start with them, in order. *)
Theorem extract_keeps_partition_errors fuel template sourceUrl s r s1 :
  parse_errors (_htmlParser this template sourceUrl true) = [] →
  extract this fuel template sourceUrl (Some interpolationConfig) s
  = (Returned r, s1) →
  ∃ es,
    errors r
    = (partition (rootNodes (_htmlParser this template sourceUrl true))
         (_implicitTags this)).2 ++ es.
Proof.
  intros Herrors. rewrite extract_unfold. unfold bind, extract_result, extract_walk.
  rewrite Herrors. cbn [length]. rewrite decide_True by done.
  destruct fuel as [|fuel]; [done|].
  destruct (recurse_keeps_partition_errors this interpolationConfig fuel
    (rootNodes (_htmlParser this template sourceUrl true)) (MkFields [] []))
    as (ms & es & Hkeeps).
  cbn [default from_option id] in *.
  destruct (_recurse _ _ _ _ _) as [[[]|e|] s2]; [|done..].
  cbn in Hkeeps. subst s2. intros [= <- <-]. exists es. cbn.
  by rewrite app_nil_r.
Qed.

End MoreFacts.

(** ** The further properties on the sample collaborators *)

(** X5 on an element whose implicit [title] the parser fails on, after the
    message of its [i18n-href]. *)
Lemma implicit_attribute_throw_propagates_sample :
  _extractMessagesFromAttributes Sample.failing_extractor Sample.faulty ()
    Sample.empty
  = (Thrown (OtherError "parser failure"),
     pushed Sample.empty
       (explicit_messages Sample.failing_extractor () Sample.faulty
          ++ omap (λ a, normal (messageFromAttribute
                                  (_parser Sample.failing_extractor) () a)) [])
       (attribute_errors Sample.failing_extractor () Sample.faulty)).
Proof.
  apply (implicit_attribute_throw_propagates Sample.failing_extractor ()
           Sample.faulty Sample.empty [] (MkAttr "title" "{{") []).
  - intros a w Ha.
    change (a ∈ [MkAttr "i18n-href" "link"]) in Ha.
    apply list_elem_of_singleton in Ha as ->. discriminate.
  - reflexivity.
  - by intros a ?%elem_of_nil.
  - reflexivity.
Defined.

(** X6 on a part whose text the parser fails on. *)
Lemma createMessage_throw_propagates_sample :
  _extractMessagesFromPart Sample.failing_extractor 3 Sample.faulty_part ()
    Sample.empty
  = (Thrown (OtherError "parser failure"), Sample.empty).
Proof.
  apply (createMessage_throw_propagates Sample.failing_extractor () 3
           Sample.faulty_part Sample.empty); reflexivity.
Defined.

(** X7 on a part to translate that has no children. *)
Lemma part_without_children_sample :
  (hasI18n Sample.childless_part = false →
   _extractMessagesFromPart Sample.extractor 0 Sample.childless_part () Sample.empty
   = match rootElement Sample.childless_part with
     | Some p => _extractMessagesFromAttributes Sample.extractor p () Sample.empty
     | None => (Returned (), Sample.empty)
     end) ∧
  (∀ m,
     hasI18n Sample.childless_part = true →
     createMessage Sample.childless_part (_parser Sample.extractor) () = Normal m →
     _extractMessagesFromPart Sample.extractor 0 Sample.childless_part () Sample.empty
     = (Thrown (OtherError "TypeError"), pushed Sample.empty [m] [])).
Proof.
  apply (part_without_children Sample.extractor () 0 Sample.childless_part
           Sample.empty).
  reflexivity.
Defined.

(** X8 on an element with a dangling [i18n-alt], an [i18n-href] for its
    [href], and an implicit [title]. *)
Lemma one_outcome_per_attribute_sample :
  ∃ ms es,
    _extractMessagesFromAttributes Sample.extractor Sample.mixed () Sample.empty
    = (Returned (), pushed Sample.empty ms es) ∧
    length ms + length es
    = length (filter explicitly_translatable (el_attrs Sample.mixed))
      + length (filter (implicitly_translatable Sample.extractor Sample.mixed)
                  (el_attrs Sample.mixed)) ∧
    length es ≤ length (filter explicitly_translatable (el_attrs Sample.mixed)) ∧
    length ms + length es ≤ length (el_attrs Sample.mixed).
Proof.
  apply (one_outcome_per_attribute Sample.extractor () Sample.mixed Sample.empty).
  apply sample_quiet, sample_names_readable. reflexivity.
Defined.

(** X9 on an element whose tag the table does not have. *)
Lemma element_with_nothing_to_translate_sample :
  _extractMessagesFromAttributes Sample.extractor Sample.plain () Sample.empty
  = (Returned (), Sample.empty).
Proof.
  apply (element_with_nothing_to_translate Sample.extractor () Sample.plain
           Sample.empty).
  - intros Hname. by apply sample_names_readable in Hname.
  - apply Forall_forall. repeat constructor; by intros [=].
  - apply Forall_forall. repeat constructor; by intros ?%elem_of_nil.
Defined.

(** X12 on an element whose tag is [constructor]. *)
Lemma inherited_member_is_not_an_array_sample :
  _extractMessagesFromAttributes Sample.extractor Sample.inherited () Sample.empty
  = (Thrown (OtherError "TypeError"), Sample.empty).
Proof.
  rewrite (inherited_member_is_not_an_array Sample.extractor () Sample.inherited
             Sample.empty).
  - reflexivity.
  - by left.
  - reflexivity.
  - intros attr w [->|Hnil%elem_of_nil]%elem_of_cons; [by intros [=]|done].
Defined.

(** X10 on a document with an i18n error and no parse error. *)
Lemma extract_errors_of_one_kind_sample :
  (parse_errors (_htmlParser Sample.extractor "dangling" "app.html" true) = [] ∧
   messages
     (MkExtractionResult
        [MkMessage "B" (Some "m|d") None; MkMessage "picture" None None]
        [MkParseError "a" "Missing attribute."])
   = _messages
       (MkFields [MkMessage "B" (Some "m|d") None; MkMessage "picture" None None]
          [MkParseError "a" "Missing attribute."]) ∧
   errors
     (MkExtractionResult
        [MkMessage "B" (Some "m|d") None; MkMessage "picture" None None]
        [MkParseError "a" "Missing attribute."])
   = _errors
       (MkFields [MkMessage "B" (Some "m|d") None; MkMessage "picture" None None]
          [MkParseError "a" "Missing attribute."])) ∨
  (parse_errors (_htmlParser Sample.extractor "dangling" "app.html" true) ≠ [] ∧
   messages
     (MkExtractionResult
        [MkMessage "B" (Some "m|d") None; MkMessage "picture" None None]
        [MkParseError "a" "Missing attribute."])
   = [] ∧
   errors
     (MkExtractionResult
        [MkMessage "B" (Some "m|d") None; MkMessage "picture" None None]
        [MkParseError "a" "Missing attribute."])
   = parse_errors (_htmlParser Sample.extractor "dangling" "app.html" true) ∧
   MkFields [MkMessage "B" (Some "m|d") None; MkMessage "picture" None None]
     [MkParseError "a" "Missing attribute."]
   = MkFields [] []).
Proof.
  apply (extract_errors_of_one_kind Sample.extractor 5 "dangling" "app.html"
           None Sample.empty).
  reflexivity.
Defined.

(** X11 on a document with an opening marker comment that nothing
    closes. *)
Lemma extract_keeps_partition_errors_sample :
  (∃ es,
     errors
       (MkExtractionResult []
          [MkParseError "i18n: m|d" "Missing closing 'i18n' comment.";
           MkParseError "a" "Missing attribute."])
     = (partition
          (rootNodes (_htmlParser Sample.extractor "unterminated" "app.html" true))
          (_implicitTags Sample.extractor)).2 ++ es) ∧
  (partition
     (rootNodes (_htmlParser Sample.extractor "unterminated" "app.html" true))
     (_implicitTags Sample.extractor)).2
  = [MkParseError "i18n: m|d" "Missing closing 'i18n' comment."].
Proof.
  split; [|reflexivity].
  apply (extract_keeps_partition_errors Sample.extractor () 5 "unterminated"
           "app.html" Sample.empty _
           (MkFields []
              [MkParseError "i18n: m|d" "Missing closing 'i18n' comment.";
               MkParseError "a" "Missing attribute."]));
    reflexivity.
Defined.
